(** * weirb-hrpc: the request context and the boot-time plugin contract

    A shallow embedding of [weirb_hrpc/context.py] (class [Context]) and of
    the two methods of [weirb_hrpc/app.py] that decide the behaviour of the
    framework at boot and per request ([App._active_plugins] and
    [App._handler]), followed by the properties established about them.

    Python objects are represented by the small value type [pyval]; the
    dictionaries of [Context] are finite maps keyed by strings; exceptions are
    values whose equality is object identity; the asynchronous generators that
    a [Context] drives are records giving their reaction to each resume. *)

From Stdlib Require Import ZArith Ascii String List.
From stdpp Require Import gmap strings list fin_maps.

(** ** Python values *)

(** The values that flow through [require]/[provide] and through the
    generator protocol.  [PyFunc] is a callable taking no argument: calling
    it either returns a value or raises the exception object [exc]. *)
Inductive pyval : Type :=
| PyNone
| PyBool (b : bool)
| PyInt (n : Z)
| PyStr (s : string)
| PyObj (addr : nat)
| PyFunc (fid : nat) (body : call_result)
with call_result : Type :=
| Returns (v : pyval)
| RaisesExc (exc : nat).

(** [x is None] *)
Definition is_None (x : pyval) : bool :=
  match x with PyNone => true | _ => false end.

(** Truth value testing, as [if x:] performs it. *)
Definition truthy (x : pyval) : bool :=
  match x with
  | PyNone => false
  | PyBool b => b
  | PyInt n => negb (n =? 0)%Z
  | PyStr s => negb (String.eqb s EmptyString)
  | PyObj _ => true
  | PyFunc _ _ => true
  end.

(** [s.startswith(p)] and [s[n:]] *)
Definition startswith (p s : string) : bool := String.prefix p s.

Fixpoint slice_from (n : nat) (s : string) : string :=
  match n, s with
  | O, _ => s
  | S n', String _ s' => slice_from n' s'
  | S _, EmptyString => EmptyString
  end.

(** ** The dependency container: [Context.require] and [Context.provide] *)

Module Container.

(** What a call of [require] can raise. *)
Inductive failure : Type :=
| DependencyError (key : string)   (* f'dependency {key!r} not exists' *)
| NotCallable                      (* TypeError: the lazy entry is no callable *)
| ProviderError (exc : nat).       (* raised by the provider itself *)

Inductive result (A : Type) : Type :=
| Return (a : A)
| Raise (e : failure).
Arguments Return {A} a.
Arguments Raise {A} e.

(** The fields of a [Context] that the container uses.  [_invoked] is
    instrumentation: the identifiers of the callables that [require] has
    called so far, oldest first. *)
Record context : Type := mkContext {
  _config : gmap string pyval;
  _container : gmap string pyval;
  _providers : gmap string pyval;
  _invoked : list nat
}.

(** [Context(config, contexts, handler)] as far as the container goes. *)
Definition new (config : gmap string pyval) : context :=
  mkContext config ∅ ∅ [].

Definition provide (c : context) (key : string) (value : pyval) (lazy : bool)
  : context :=
  if lazy
  then mkContext (_config c) (_container c) (<[key := value]> (_providers c))
                 (_invoked c)
  else mkContext (_config c) (<[key := value]> (_container c)) (_providers c)
                 (_invoked c).

Definition require (c : context) (key : string) : result pyval * context :=
  if startswith "config."%string key then
    let config_key := slice_from 7 key in
    match _config c !! config_key with
    | None => (Raise (DependencyError key), c)
    | Some v => (Return v, c)
    end
  else
    match _container c !! key with
    | Some v => (Return v, c)
    | None =>
        match _providers c !! key with
        | None => (Raise (DependencyError key), c)
        | Some (PyFunc fid body) =>
            let invoked := _invoked c ++ [fid] in
            match body with
            | RaisesExc exc =>
                (Raise (ProviderError exc),
                 mkContext (_config c) (_container c) (_providers c) invoked)
            | Returns v =>
                (Return v,
                 mkContext (_config c) (<[key := v]> (_container c))
                           (_providers c) invoked)
            end
        | Some _ => (Raise NotCallable, c)
        end
    end.

(** A script of [provide] calls for one key: the value and the [lazy] flag
    of each call. *)
Definition provide_all (c : context) (key : string)
    (calls : list (pyval * bool)) : context :=
  foldl (fun c' '(value, lazy) => provide c' key value lazy) c calls.

(** [n] successive calls of [require(key)]: the results in call order and the
    context they leave. *)
Fixpoint require_many (n : nat) (c : context) (key : string)
  : list (result pyval) * context :=
  match n with
  | O => ([], c)
  | S n' =>
      let '(r, c') := require c key in
      let '(rs, c'') := require_many n' c' key in
      (r :: rs, c'')
  end.

(** What calling a lazy entry gives. *)
Definition call (f : pyval) : result pyval :=
  match f with
  | PyFunc _ (Returns v) => Return v
  | PyFunc _ (RaisesExc exc) => Raise (ProviderError exc)
  | _ => Raise NotCallable
  end.

(** What "the most recent provide" of a script promises [require] to
    return: the value itself when that call was eager, the result of calling
    it when it was lazy. *)
Definition most_recent (calls : list (pyval * bool)) : option (result pyval) :=
  match last calls with
  | None => None
  | Some (value, false) => Some (Return value)
  | Some (f, true) => Some (call f)
  end.

(** The last eager value of a script, if it has one. *)
Definition last_eager (calls : list (pyval * bool)) : option pyval :=
  fst <$> last (filter (fun p => snd p = false) calls).

(** The last lazy entry of a script, if it has one. *)
Definition last_lazy (calls : list (pyval * bool)) : option pyval :=
  fst <$> last (filter (fun p => snd p = true) calls).

(** A script of [provide] calls on any keys: the key, the value and the
    [lazy] flag of each call. *)
Definition provide_each (c : context) (calls : list (string * pyval * bool))
  : context :=
  foldl (fun c' '(key, value, lazy) => provide c' key value lazy) c calls.

End Container.

(** ** The scope composer: [Context.__aenter__] and [Context.__aexit__] *)

Module Composer.

(** The four [RuntimeError]s that [Context] builds, by message:
    ['context {ctx} not yield'],
    ['context {ctx} must not yield non-None value'],
    ['context {ctx} must not return non-None value'],
    ['context {ctx} not stop after throw']. *)
Inductive violation : Type :=
| NotYield
| YieldNonNone
| ReturnNonNone
| NotStop.

(** Exception objects that can become the current error of a pass.  Equality
    on [exn] is object identity: [Ext id] is an exception created outside
    [Context] (by the request handler or by a participant), [RuntimeError w i]
    is the one that the running pass creates for the participant at index
    [i]; a pass visits each participant once, so [w] and [i] identify it. *)
Inductive exn : Type :=
| Ext (id : nat)
| RuntimeError (why : violation) (ctx : nat).

#[global] Instance violation_eq_dec : EqDecision violation.
Proof. solve_decision. Defined.

#[global] Instance exn_eq_dec : EqDecision exn.
Proof. solve_decision. Defined.

(** How [await ctx.asend(None)] or [await ctx.athrow(e)] comes back:
    - [Yields ret]: the generator suspended again, the await returns [ret];
    - [Stops value]: it raised [StopAsyncIteration].  [value] is the [value]
      attribute of that exception instance, [None] when the instance has no
      such attribute.  [StopAsyncIteration], unlike [StopIteration], defines
      none, so a native asynchronous generator that finishes gives
      [Stops None]; only a hand-written participant can set one;
    - [Throws id]: it raised the exception object [Ext id]. *)
Inductive outcome : Type :=
| Yields (ret : pyval)
| Stops (value : option pyval)
| Throws (id : nat).

(** The reaction to [athrow(e)]: the injected object itself propagates out of
    the generator, or one of the outcomes above. *)
Inductive reaction : Type :=
| Propagates
| Reacts (o : outcome).

(** A scope participant (one element of [self._contexts]), by its reaction
    to the first resume ([__aenter__]) and to the second one, which is either
    [asend(None)] or [athrow(e)]. *)
Record participant : Type := mkParticipant {
  on_enter : outcome;
  on_asend : outcome;
  on_athrow : exn -> reaction
}.

(** The calls made on the participants, by index in [self._contexts]. *)
Inductive event : Type :=
| Asend (ctx : nat)
| Athrow (ctx : nat) (e : exn).

Definition event_ctx (ev : event) : nat :=
  match ev with Asend i => i | Athrow i _ => i end.

(** What a pass raises: a current error; the [AttributeError] of evaluating
    [stop.value] on an instance without that attribute, for the participant
    [ctx]; the [TypeError] of [raise None]. *)
Inductive raised : Type :=
| Error (e : exn)
| AttributeError (ctx : nat)
| TypeError.

(** The [__cause__] attribute of the exception objects. *)
Definition causes : Type := exn -> option exn.

(** [e.__cause__ = c] *)
Definition set_cause (e c : exn) (h : causes) : causes :=
  fun x => if decide (x = e) then Some c else h x.

(** [enumerate(cs, i)] *)
Fixpoint enumerate (i : nat) (cs : list participant)
  : list (nat * participant) :=
  match cs with
  | [] => []
  | c :: cs' => (i, c) :: enumerate (S i) cs'
  end.

(** The outcome of a whole pass: what it raises ([None]: it returns), the
    [__cause__] attributes it leaves and the calls it made, oldest first. *)
Record pass : Type := mkPass {
  raises : option raised;
  final_causes : causes;
  trace : list event
}.

(** *** [__aenter__] *)

(** The first loop of [__aenter__]: the calls made and, when it breaks, the
    index [i] and the [error] it breaks with. *)
Fixpoint enter_loop (cs : list (nat * participant)) (calls : list event)
  : list event * option (nat * exn) :=
  match cs with
  | [] => (calls, None)
  | (i, ctx) :: rest =>
      let calls := calls ++ [Asend i] in
      let error :=
        match on_enter ctx with
        | Stops _ => Some (RuntimeError NotYield i)
        | Throws id => Some (Ext id)
        | Yields ret =>
            if is_None ret then None else Some (RuntimeError YieldNonNone i)
        end in
      match error with
      | Some e => (calls, Some (i, e))
      | None => enter_loop rest calls
      end
  end.

(** The variables of the second loop of [__aenter__]. *)
Record unwinding : Type := mkUnwinding {
  uw_error : exn;
  uw_current_error : exn;
  uw_cause : causes;
  uw_calls : list event
}.

(** A loop either runs on with its variables, or is left by the
    [AttributeError] raised in its [except StopAsyncIteration as stop]
    clause. *)
Inductive flow (S : Type) : Type :=
| Next (st : S)
| Escaped (ctx : nat) (st : S).
Arguments Next {S} st.
Arguments Escaped {S} ctx st.

(** One iteration of [for ctx in reversed(self._contexts[:i])]. *)
Definition unwind_step (st : unwinding) (jc : nat * participant)
  : flow unwinding :=
  let '(j, ctx) := jc in
  let current_error := uw_current_error st in
  let calls := uw_calls st ++ [Athrow j current_error] in
  let chain error :=
    if decide (error = current_error)
    then mkUnwinding error current_error (uw_cause st) calls
    else mkUnwinding error error
           (set_cause error current_error (uw_cause st)) calls in
  match on_athrow ctx current_error with
  | Reacts (Stops None) =>
      Escaped j (mkUnwinding (uw_error st) current_error (uw_cause st) calls)
  | Reacts (Stops (Some value)) =>
      if truthy value
      then Next (chain (RuntimeError ReturnNonNone j))
      else Next (chain (uw_error st))
  | Reacts (Throws id) => Next (chain (Ext id))
  | Propagates => Next (chain current_error)
  | Reacts (Yields _) => Next (chain (RuntimeError NotStop j))
  end.

Fixpoint unwind_loop (cs : list (nat * participant)) (st : unwinding)
  : flow unwinding :=
  match cs with
  | [] => Next st
  | jc :: rest =>
      match unwind_step st jc with
      | Next st' => unwind_loop rest st'
      | Escaped j st' => Escaped j st'
      end
  end.

Definition __aenter__ (contexts : list participant) (h : causes) : pass :=
  match enter_loop (enumerate 0 contexts) [] with
  | (calls, None) => mkPass None h calls
  | (calls, Some (i, error)) =>
      let st := mkUnwinding error error h calls in
      match unwind_loop (reverse (take i (enumerate 0 contexts))) st with
      | Next st' =>
          mkPass (Some (Error (uw_current_error st')))
                 (uw_cause st') (uw_calls st')
      | Escaped j st' =>
          mkPass (Some (AttributeError j)) (uw_cause st') (uw_calls st')
      end
  end.

(** *** [__aexit__] *)

(** The variables of the loop of [__aexit__]. *)
Record exiting : Type := mkExiting {
  error : option exn;
  current_error : option exn;
  cause : causes;
  calls : list event
}.

(** One iteration of [for ctx in reversed(self._contexts)]. *)
Definition exit_step (st : exiting) (jc : nat * participant) : flow exiting :=
  let '(j, ctx) := jc in
  let '(r, calls) :=
    match current_error st with
    | Some c => (on_athrow ctx c, calls st ++ [Athrow j c])
    | None => (Reacts (on_asend ctx), calls st ++ [Asend j])
    end in
  let settle error :=
    match error with
    | None => mkExiting None None (cause st) calls
    | Some e =>
        match current_error st with
        | None => mkExiting error error (cause st) calls
        | Some c =>
            if decide (e = c)
            then mkExiting error (current_error st) (cause st) calls
            else mkExiting error error (set_cause e c (cause st)) calls
        end
    end in
  match r with
  | Reacts (Stops None) =>
      Escaped j (mkExiting (error st) (current_error st) (cause st) calls)
  | Reacts (Stops (Some value)) =>
      if truthy value
      then Next (settle (Some (RuntimeError ReturnNonNone j)))
      else Next (settle None)
  | Reacts (Throws id) => Next (settle (Some (Ext id)))
  | Propagates => Next (settle (current_error st))
  | Reacts (Yields _) => Next (settle (Some (RuntimeError NotStop j)))
  end.

Fixpoint exit_loop (cs : list (nat * participant)) (st : exiting)
  : flow exiting :=
  match cs with
  | [] => Next st
  | jc :: rest =>
      match exit_step st jc with
      | Next st' => exit_loop rest st'
      | Escaped j st' => Escaped j st'
      end
  end.

(** [exc] is the exception the body of the [async with] ended with, an
    object created outside [Context], or [None]. *)
Definition __aexit__ (contexts : list participant) (exc : option nat)
    (h : causes) : pass :=
  let exc := Ext <$> exc in
  let st := mkExiting exc exc h [] in
  match exit_loop (reverse (enumerate 0 contexts)) st with
  | Next st' =>
      if decide (current_error st' = exc)
      then mkPass None (cause st') (calls st')
      else
        match current_error st' with
        | Some e => mkPass (Some (Error e)) (cause st') (calls st')
        | None => mkPass (Some TypeError) (cause st') (calls st')
        end
  | Escaped j st' => mkPass (Some (AttributeError j)) (cause st') (calls st')
  end.

(** What the [async with] statement that called [__aexit__] ends with: what
    [__aexit__] raised or, when it returned (None, which is false), the
    exception [exc] of its body. *)
Definition reported (exc : option nat) (p : pass) : option raised :=
  match raises p with
  | Some r => Some r
  | None => Error <$> (Ext <$> exc)
  end.

(** The variables of the loop of [__aexit__] when it starts, and when it is
    about to resume the participant at index [n]. *)
Definition exit_init (exc : option nat) (h : causes) : exiting :=
  mkExiting (Ext <$> exc) (Ext <$> exc) h [].

Definition exit_before (contexts : list participant) (exc : option nat)
    (h : causes) (n : nat) : flow exiting :=
  exit_loop (reverse (drop (S n) (enumerate 0 contexts))) (exit_init exc h).

(** The variables of the second loop of [__aenter__] when it is about to
    resume the participant at index [n]; [None] when the first loop did not
    break. *)
Definition unwind_before (contexts : list participant) (h : causes) (n : nat)
  : option (flow unwinding) :=
  match enter_loop (enumerate 0 contexts) [] with
  | (calls, Some (i, error)) =>
      if decide (n < i)
      then Some (unwind_loop
                   (reverse (drop (S n) (take i (enumerate 0 contexts))))
                   (mkUnwinding error error h calls))
      else None
  | (_, None) => None
  end.

(** What the participant [p] answers when the loop of [__aexit__] resumes it
    with the variables [st]. *)
Definition resumed (st : exiting) (p : participant) : reaction :=
  match current_error st with
  | Some c => on_athrow p c
  | None => Reacts (on_asend p)
  end.

(** The protocol violations, as the code detects them: at the first resume,
    finishing without suspending or yielding a value that is not None; at
    the second resume, suspending again or finishing with a [value] that is
    true. *)
Definition enter_violation (o : outcome) : option violation :=
  match o with
  | Stops _ => Some NotYield
  | Yields ret => if is_None ret then None else Some YieldNonNone
  | Throws _ => None
  end.

Definition exit_violation (r : reaction) : option violation :=
  match r with
  | Reacts (Yields _) => Some NotStop
  | Reacts (Stops (Some value)) =>
      if truthy value then Some ReturnNonNone else None
  | _ => None
  end.

(** [e] is not an error that a pass creates for a participant at an index
    up to [n]. *)
Definition made_after (n : nat) (e : exn) : Prop :=
  match e with
  | Ext _ => True
  | RuntimeError _ j => n < j
  end.

(** Participants used as examples.  [native] is the asynchronous generator
    of [async def scope(context): yield]: it suspends once, finishes when
    resumed, and lets an injected error propagate.  [native_catching] wraps
    its [yield] in [try: ... except BaseException: pass]: it finishes after
    an injected error too.  Both finish with a bare [StopAsyncIteration]. *)
Definition native : participant :=
  mkParticipant (Yields PyNone) (Stops None) (fun _ => Propagates).

Definition native_catching : participant :=
  mkParticipant (Yields PyNone) (Stops None) (fun _ => Reacts (Stops None)).

(** Hand-written participants, whose [StopAsyncIteration] carries a [value]
    attribute.  [swallowing] finishes with [value = None] whatever it is
    resumed with; [failing id] suspends once and raises [Ext id] at any
    second resume; [failing_enter id] raises [Ext id] at its first resume;
    [restarting] suspends again at its second resume. *)
Definition swallowing : participant :=
  mkParticipant (Yields PyNone) (Stops (Some PyNone))
                (fun _ => Reacts (Stops (Some PyNone))).

Definition failing (id : nat) : participant :=
  mkParticipant (Yields PyNone) (Throws id) (fun _ => Reacts (Throws id)).

Definition failing_enter (id : nat) : participant :=
  mkParticipant (Throws id) (Stops None) (fun _ => Propagates).

Definition restarting : participant :=
  mkParticipant (Yields PyNone) (Yields PyNone)
                (fun _ => Reacts (Yields PyNone)).

(** A participant that never finishes with a bare [StopAsyncIteration]:
    whenever it stops, [stop.value] can be read. *)
Definition carries_value (p : participant) : Prop :=
  on_asend p ≠ Stops None ∧ ∀ e, on_athrow p e ≠ Reacts (Stops None).

(** No exception object has a cause yet. *)
Definition no_causes : causes := fun _ => None.

End Composer.

(** ** Boot: [App._active_plugins] *)

Module Boot.

(** A plugin object, by the attributes that [_active_plugins] probes with
    [hasattr]: [None] is an absent attribute.  [plugin_repr] is what
    [f'{plugin}'] prints; [context] and [decorator] are identified by a
    number. *)
Record plugin : Type := mkPlugin {
  plugin_repr : string;
  context : option nat;
  decorator : option nat;
  provides : option (list string);
  requires : option (list string)
}.

(** The attributes of the [App] that [_active_plugins] assigns. *)
Record app : Type := mkApp {
  app_contexts : list nat;
  app_decorators : list nat;
  app_provides : gset string
}.

(** The steps of [_active_plugins] on the plugin at an index of
    [self.plugins]: its activation hook is called, its [requires] are
    checked.  The hook [plugin.active(self)] is code of the plugin: here it
    returns and leaves the attributes above as they are. *)
Inductive event : Type :=
| Active (i : nat)
| Checked (i : nat).

Inductive failure : Type :=
| DependencyError (msg : string).

(** [sep.join(l)] *)
Fixpoint join (sep : string) (l : list string) : string :=
  match l with
  | [] => EmptyString
  | [s] => s
  | s :: rest => String.append s (String.append sep (join sep rest))
  end.

(** [{f'config.{key}' for key in fields(self.config)}] *)
Definition config_keys (fields : list string) : gset string :=
  list_to_set (map (String.append "config.") fields).

(** [x if o is absent else x + [v]], for the optional attributes. *)
Definition append_attr {A : Type} (l : list A) (o : option A) : list A :=
  match o with Some v => l ++ [v] | None => l end.

(** The first loop. *)
Fixpoint activate (i : nat) (plugins : list plugin) (a : app)
    (log : list event) : app * list event :=
  match plugins with
  | [] => (a, log)
  | p :: rest =>
      let log := log ++ [Active i] in
      let a :=
        mkApp (append_attr (app_contexts a) (context p))
              (append_attr (app_decorators a) (decorator p))
              (match provides p with
               | Some l => app_provides a ∪ list_to_set l
               | None => app_provides a
               end) in
      activate (S i) rest a log
  end.

(** [', '.join(requires - self.provides)]; the order in which Python would
    iterate over the difference is not specified, [elements] fixes one. *)
Definition missing_of (provided : gset string) (reqs : list string) : string :=
  join ", " (elements ((list_to_set reqs : gset string) ∖ provided)).

Definition message (missing : string) (p : plugin) : string :=
  String.append "the requires "
    (String.append missing
       (String.append " of plugin "
          (String.append (plugin_repr p) " is missing"))).

(** The second loop. *)
Fixpoint validate (i : nat) (plugins : list plugin) (provided : gset string)
    (log : list event) : option failure * list event :=
  match plugins with
  | [] => (None, log)
  | p :: rest =>
      match requires p with
      | None => validate (S i) rest provided log
      | Some reqs =>
          let log := log ++ [Checked i] in
          let missing := missing_of provided reqs in
          if String.eqb missing EmptyString
          then validate (S i) rest provided log
          else (Some (DependencyError (message missing p)), log)
      end
  end.

(** [fields] are the field names of [self.config]; the result is the [App]
    after the first loop, what the second loop raises, and the steps taken. *)
Definition _active_plugins (fields : list string) (plugins : list plugin)
  : app * option failure * list event :=
  let '(a, log) := activate 0 plugins (mkApp [] [] (config_keys fields)) [] in
  let '(r, log) := validate 0 plugins (app_provides a) log in
  (a, r, log).

(** The provided-set: every namespaced configuration field and every
    plugin's [provides] list. *)
Definition provided_set (fields : list string) (plugins : list plugin)
  : gset string :=
  config_keys fields ∪
  ⋃ (map (fun p => list_to_set (default [] (provides p))) plugins).

(** The plugin's [requires] minus the provided-set is non-empty. *)
Definition offending (provided : gset string) (p : plugin) : Prop :=
  ∃ reqs, requires p = Some reqs ∧
    (list_to_set reqs : gset string) ∖ provided ≠ ∅.

(** Some plugin's [requires] minus the provided-set is non-empty. *)
Definition unsatisfied (fields : list string) (plugins : list plugin) : Prop :=
  ∃ p, p ∈ plugins ∧ offending (provided_set fields plugins) p.


(** The plugins of the boot scenario. *)
Definition P1 : plugin := mkPlugin "P1" None None (Some ["cache"%string]) None.
Definition P2 : plugin :=
  mkPlugin "P2" None None None (Some ["cache"; "config.debug"]%string).

(** A plugin that requires the empty key and nothing else. *)
Definition P_empty : plugin :=
  mkPlugin "P" None None None (Some [EmptyString]).

End Boot.

(** ** The request handler: [App._handler] *)

Module Handler.

(** Modelled from the spec: the exception classes, defined in
    [weirb_hrpc/error.py] and in [weirb.error], neither under src/.  Section 7
    keeps the domain error ([HrpcError]) and the transport's own error
    ([HttpError]) apart and both are ordinary errors; [OtherException] is any
    other instance of [Exception], [NonException] an exception that derives
    from [BaseException] only ([KeyboardInterrupt], [SystemExit],
    [GeneratorExit]). *)
Inductive exc_class : Type :=
| HrpcError
| HttpError
| OtherException
| NonException.

Record exception : Type := mkException {
  exc_class_of : exc_class;
  exc_id : nat
}.

(** What the body of the [try] does: [self.router.lookup] finds a method or
    raises, the method returns a response or raises. *)
Inductive attempt (A : Type) : Type :=
| Gives (a : A)
| Fails (e : exception).
Arguments Gives {A} a.
Arguments Fails {A} e.

Inductive response : Type :=
| MethodResponse (r : nat)           (* what the routed method returned *)
| ErrorResponse (e : exception)      (* ErrorResponse(ex).to_http() *)
| InternalErrorResponse.             (* ErrorResponse(InternalError()).to_http() *)

(** How [_handler] ends: it returns [http_response], having logged the
    exceptions in [logged] with [LOG.error], or an exception escapes.
    Building the request object before the [try], and the error responses
    in the [except] clauses, raises nothing. *)
Inductive completion : Type :=
| Responds (http_response : response) (logged : list exception)
| Escapes (e : exception).

(** The exception that the body of the [try] ends with, if any. *)
Definition raised_by (lookup : attempt (attempt nat)) : option exception :=
  match lookup with
  | Fails e => Some e
  | Gives (Fails e) => Some e
  | Gives (Gives _) => None
  end.

Definition _handler (lookup : attempt (attempt nat)) : completion :=
  let body :=
    match lookup with
    | Fails e => Fails e
    | Gives method => method
    end in
  match body with
  | Gives r => Responds (MethodResponse r) []
  | Fails ex =>
      match exc_class_of ex with
      | HrpcError => Responds (ErrorResponse ex) []
      | HttpError => Escapes ex
      | OtherException => Responds InternalErrorResponse [ex]
      | NonException => Escapes ex
      end
  end.

End Handler.

(** ** Helpers of [app.py]: [_shorten] and [_import_services] *)

Module AppHelpers.

(** [s[:n]] for a length [n] that is not negative. *)
Fixpoint string_take (n : nat) (s : string) : string :=
  match n, s with
  | O, _ => EmptyString
  | S _, EmptyString => EmptyString
  | S n', String ch s' => String ch (string_take n' s')
  end.

(** [s[:w]] for any integer [w]: a negative [w] counts from the end. *)
Definition slice_to (w : Z) (s : string) : string :=
  if (w <? 0)%Z
  then string_take (Z.to_nat (Z.of_nat (String.length s) + w)) s
  else string_take (Z.to_nat w) s.

(** [_shorten(x, w)]; the callers leave [w] at its default, [30]. *)
Definition _shorten (x : string) (w : Z) : string :=
  if (Z.of_nat (String.length x) >? w)%Z
  then String.append (slice_to w x) "..."
  else x.

(** [s.endswith(suffix)] *)
Definition endswith (suffix s : string) : bool :=
  (String.length suffix <=? String.length s) &&
  String.eqb (slice_from (String.length s - String.length suffix) s) suffix.

(** An entry of [vars(module)]: its name, whether [inspect.isclass] holds of
    the object, and the object, by a number. *)
Record member : Type := mkMember {
  member_name : string;
  member_isclass : bool;
  member_obj : nat
}.

(** The test that [_import_services] makes on an entry. *)
Definition is_service (m : member) : bool :=
  let suffix := "Service"%string in
  negb (String.eqb (member_name m) suffix) && endswith suffix (member_name m)
  && member_isclass m.

(** [_import_services]: [modules] is what [import_all_modules] yields, each
    module by its [vars]; the result is what the generator yields, in
    order. *)
Definition _import_services (modules : list (list member)) : list nat :=
  member_obj <$> filter (fun m => is_service m = true) (concat modules).

End AppHelpers.

(** ** Loading the configuration: [App._load_config] *)

Module ConfigLoad.

Section load.

(** [V] is the type of the configuration values (what TOML and the command
    line give), [C] the type of a validated configuration object. *)
Context {V C : Type}.

(** [d[k] = v] and [d.get(k)] on a [dict], which keeps insertion order. *)
Fixpoint dict_set (k : string) (v : V) (d : list (string * V))
  : list (string * V) :=
  match d with
  | [] => [(k, v)]
  | (k', v') :: d' =>
      if String.eqb k' k then (k', v) :: d' else (k', v') :: dict_set k v d'
  end.

Fixpoint dict_get (k : string) (d : list (string * V)) : option V :=
  match d with
  | [] => None
  | (k', v') :: d' => if String.eqb k' k then Some v' else dict_get k d'
  end.

(** [d.update(other)] *)
Definition dict_update (d other : list (string * V)) : list (string * V) :=
  foldl (fun d' '(k, v) => dict_set k v d') d other.

(** What the three calls that [_load_config] guards can do: return, raise
    the exception that the [except] clause names, or raise another one, by a
    number. *)
Inductive opened : Type :=
| Content (content : string)
| FileNotFoundError
| OpenRaises (e : nat).

Inductive decoded : Type :=
| Table (config : list (string * V))
| TomlDecodeError
| LoadsRaises (e : nat).

Inductive validated : Type :=
| Valid (config : C)
| Invalid (message : string)
| ClassRaises (e : nat).

(** The [ConfigError]s, by message: ['config file {path!r} not found'],
    ['config file {path!r} is not valid TOML file'], and the message of the
    [Invalid] exception. *)
Inductive config_error : Type :=
| NotFound (config_path : string)
| NotToml (config_path : string)
| InvalidConfig (message : string).

Inductive loaded : Type :=
| Loaded (config : C)
| ConfigError (why : config_error)
| Raises (e : nat).

(** The call of [self.config_class] on the keyword arguments [config], with
    its [except]. *)
Definition build (config_class : list (string * V) → validated)
    (config : list (string * V)) : loaded :=
  match config_class config with
  | Valid c => Loaded c
  | Invalid message => ConfigError (InvalidConfig message)
  | ClassRaises e => Raises e
  end.

(** [_load_config]: [getenv] is what [os.getenv(key, None)] returns,
    [open_] what opening and reading a path does, [loads] is [toml.loads],
    [config_class] is [self.config_class]; the [print] calls are left
    out. *)
Definition _load_config (getenv : option string) (open_ : string → opened)
    (loads : string → decoded)
    (config_class : list (string * V) → validated)
    (cli_config : list (string * V)) : loaded :=
  match getenv with
  | Some (String ch rest as config_path) =>
      match open_ config_path with
      | FileNotFoundError => ConfigError (NotFound config_path)
      | OpenRaises e => Raises e
      | Content content =>
          match loads content with
          | TomlDecodeError => ConfigError (NotToml config_path)
          | LoadsRaises e => Raises e
          | Table config => build config_class (dict_update config cli_config)
          end
      end
  | _ => build config_class cli_config
  end.

End load.

End ConfigLoad.

(** ** The command line: [cli._parse_config_options] *)

Module Cli.

(** The values of the parsed configuration: [True] or a string. *)
Inductive value : Type :=
| VTrue
| VStr (s : string).

(** A [dict], which keeps its keys in insertion order. *)
Definition dict : Type := list (string * value).

(** [d[k] = v]: an existing key keeps its place. *)
Fixpoint dict_set (k : string) (v : value) (d : dict) : dict :=
  match d with
  | [] => [(k, v)]
  | (k', v') :: d' =>
      if String.eqb k' k then (k', v) :: d' else (k', v') :: dict_set k v d'
  end.

(** [d.get(k)] *)
Fixpoint dict_get (k : string) (d : dict) : option value :=
  match d with
  | [] => None
  | (k', v') :: d' => if String.eqb k' k then Some v' else dict_get k d'
  end.

(** [token.split('=', maxsplit=1)]: the part before the first ['='] and,
    when there is one, the part after it. *)
Fixpoint split_eq (token : string) : string * option string :=
  match token with
  | EmptyString => (EmptyString, None)
  | String ch rest =>
      if Ascii.eqb ch "="%char
      then (EmptyString, Some rest)
      else let '(head, tail) := split_eq rest in (String ch head, tail)
  end.

(** [k.replace('-', '_')] *)
Fixpoint replace_hyphens (k : string) : string :=
  match k with
  | EmptyString => EmptyString
  | String ch rest =>
      String (if Ascii.eqb ch "-"%char then "_"%char else ch) (replace_hyphens rest)
  end.

(** [ch in s] *)
Fixpoint has_char (ch : Ascii.ascii) (s : string) : bool :=
  match s with
  | EmptyString => false
  | String ch' rest => Ascii.eqb ch' ch || has_char ch rest
  end.

(** The variables of the loop: [config] and [prev]. *)
Record parsing : Type := mkParsing {
  config : dict;
  prev : option string
}.

Definition _take_prev (st : parsing) : parsing :=
  match prev st with
  | Some p => mkParsing (dict_set p VTrue (config st)) None
  | None => st
  end.

(** One iteration of [while tokens:]. *)
Definition parse_step (st : parsing) (token : string) : parsing :=
  let '(token, st) :=
    if startswith "--" token
    then (slice_from 2 token, _take_prev st)
    else (token, st) in
  match split_eq token with
  | (key, Some val) =>
      _take_prev (mkParsing (dict_set key (VStr val) (config st)) (prev st))
  | (word, None) =>
      match prev st with
      | Some p => mkParsing (dict_set p (VStr word) (config st)) None
      | None => mkParsing (config st) (Some word)
      end
  end.

(** [{k.replace('-', '_'): v for k, v in config.items()}] *)
Definition normalise (d : dict) : dict :=
  foldl (fun d' '(k, v) => dict_set (replace_hyphens k) v d') [] d.

Definition _parse_config_options (tokens : list string) : dict :=
  let st := _take_prev (foldl parse_step (mkParsing [] None) tokens) in
  normalise (config st).

(** The options of a command line in the documented forms: [--key] alone, a
    flag; [--key value]; [--key=value]. *)
Inductive cli_option : Type :=
| Flag (key : string)
| Pair (key val : string)
| Assign (key val : string).

Definition option_key (o : cli_option) : string :=
  match o with Flag k | Pair k _ | Assign k _ => k end.

Definition option_value (o : cli_option) : value :=
  match o with
  | Flag _ => VTrue
  | Pair _ v | Assign _ v => VStr v
  end.

(** The tokens of an option. *)
Definition render (o : cli_option) : list string :=
  match o with
  | Flag k => [String.append "--" k]
  | Pair k v => [String.append "--" k; v]
  | Assign k v => [String.append "--" (String.append k (String "="%char v))]
  end.

(** The key has no ['=']; the value of [--key value] has none either and
    does not itself start with ['--']. *)
Definition well_formed (o : cli_option) : Prop :=
  has_char "="%char (option_key o) = false ∧
  match o with
  | Pair _ v => startswith "--" v = false ∧ has_char "="%char v = false
  | _ => True
  end.

(** The value of the last option of the list that has the key [k]. *)
Fixpoint last_value (k : string) (opts : list cli_option) : option value :=
  match opts with
  | [] => None
  | o :: rest =>
      match last_value k rest with
      | Some v => Some v
      | None => if String.eqb (option_key o) k then Some (option_value o)
                else None
      end
  end.

End Cli.

(** * Properties *)

(** ** The dependency container *)

Module ContainerProps.
Import Container.

(** [provide] leaves the configuration snapshot and the call log alone. *)
Lemma provide_config c key value lazy :
  _config (provide c key value lazy) = _config c.
Proof. by destruct lazy. Qed.

Lemma provide_invoked c key value lazy :
  _invoked (provide c key value lazy) = _invoked c.
Proof. by destruct lazy. Qed.

(** Outside the [config.] namespace [require] reads the container first. *)
Lemma require_stored c key v :
  startswith "config." key = false →
  _container c !! key = Some v →
  require c key = (Return v, c).
Proof. intros Hk Hv. unfold require. by rewrite Hk, Hv. Qed.

(** A key of the [config.] namespace never reaches the two registries. *)
Lemma require_config c key :
  startswith "config." key = true →
  require c key =
    (match _config c !! slice_from 7 key with
     | Some v => Return v
     | None => Raise (DependencyError key)
     end, c).
Proof.
  intros Hk. unfold require. rewrite Hk.
  by destruct (_config c !! slice_from 7 key).
Qed.

(** The first [require] of a key that has only a lazy entry calls it. *)
Lemma require_lazy c key f :
  startswith "config." key = false →
  _container c !! key = None →
  _providers c !! key = Some f →
  (require c key).1 = call f.
Proof.
  intros Hk Hc Hp. unfold require. rewrite Hk, Hc, Hp.
  by destruct f as [| | | | |fid [v|exc]].
Qed.

(** What a script of [provide] calls leaves in the two registries. *)
Lemma provide_all_snoc c key calls value lazy :
  provide_all c key (calls ++ [(value, lazy)]) =
  provide (provide_all c key calls) key value lazy.
Proof. unfold provide_all. by rewrite foldl_app. Qed.

Lemma provide_all_container c key calls :
  _container (provide_all c key calls) !! key =
  match last_eager calls with
  | Some v => Some v
  | None => _container c !! key
  end.
Proof.
  induction calls as [|[value lazy] calls IH] using rev_ind; [done|].
  rewrite provide_all_snoc. unfold last_eager in *.
  rewrite filter_app. destruct lazy; simpl.
  - rewrite filter_cons_False, filter_nil, app_nil_r by (simpl; congruence).
    exact IH.
  - rewrite filter_cons_True, filter_nil by done.
    rewrite last_snoc. simpl. by rewrite lookup_insert_eq.
Qed.

Lemma provide_all_providers c key calls :
  _providers (provide_all c key calls) !! key =
  match last_lazy calls with
  | Some f => Some f
  | None => _providers c !! key
  end.
Proof.
  induction calls as [|[value lazy] calls IH] using rev_ind; [done|].
  rewrite provide_all_snoc. unfold last_lazy in *.
  rewrite filter_app. destruct lazy; simpl.
  - rewrite filter_cons_True, filter_nil by done.
    rewrite last_snoc. simpl. by rewrite lookup_insert_eq.
  - rewrite filter_cons_False, filter_nil, app_nil_r by (simpl; congruence).
    exact IH.
Qed.

(** Once a key outside the [config.] namespace is stored, any number of
    [require] calls return the stored value and change nothing. *)
Lemma require_many_stored n c key v :
  startswith "config." key = false →
  _container c !! key = Some v →
  require_many n c key = (replicate n (Return v), c).
Proof.
  intros Hk Hv. induction n as [|n IH]; [done|].
  simpl. rewrite (require_stored c key v Hk Hv), IH. done.
Qed.

(** [require] on a key of the [config.] namespace calls nothing. *)
Lemma require_many_config n c key :
  startswith "config." key = true →
  (require_many n c key).2 = c.
Proof.
  intros Hk. induction n as [|n IH]; [done|].
  simpl. rewrite (require_config c key Hk).
  destruct (require_many n c key) as [rs c'] eqn:E. simpl in *. done.
Qed.

(** C2, as stated, fails: a value provided eagerly under a key of the
    [config.] namespace is not what [require] returns; here [require] raises
    the dependency error, the configuration having no field [x]. *)
Lemma provide_require_config_key :
  (require (provide (new ∅) "config.x" (PyInt 1) false) "config.x").1
  = Raise (DependencyError "config.x") ∧
  (require (provide (new ∅) "config.x" (PyInt 1) false) "config.x").1
  ≠ Return (PyInt 1).
Proof. split; [by vm_compute | vm_compute; discriminate]. Qed.

(** C2, amended: for every key outside the [config.] namespace and every
    value, [provide(key, value)] followed by [require(key)] on the same
    Context returns exactly the value provided, and leaves the Context as the
    [provide] left it. *)
Theorem provide_then_require c key value :
  startswith "config." key = false →
  require (provide c key value false) key
  = (Return value, provide c key value false).
Proof.
  intros Hk. apply require_stored; [done|].
  simpl. by rewrite lookup_insert_eq.
Qed.

Lemma provide_then_require_witness :
  startswith "config." "cache" = false ∧
  require (provide (new ∅) "cache" (PyObj 3) false) "cache"
  = (Return (PyObj 3), provide (new ∅) "cache" (PyObj 3) false).
Proof.
  split; [reflexivity|].
  apply (provide_then_require (new ∅) "cache" (PyObj 3)). reflexivity.
Defined.

(** C3, as stated, fails: after an eager and then a lazy [provide] of the
    same key, [require] returns the older, eager value, not what the most
    recent (lazy) registration stands for. *)
Lemma last_write_wins_mixed :
  let calls := [(PyInt 1, false); (PyFunc 0 (Returns (PyInt 2)), true)] in
  most_recent calls = Some (Return (PyInt 2)) ∧
  (require (provide_all (new ∅) "db" calls) "db").1 = Return (PyInt 1).
Proof. split; by vm_compute. Qed.

(** C3, amended: for every key outside the [config.] namespace, re-providing
    overwrites the prior registration of the same kind.  After any sequence of
    [provide] calls for the key, [require(key)] returns the most recent
    eagerly provided value when there is one; when there is none and nothing
    is stored for the key yet, it returns what calling the most recently
    provided lazy entry gives. *)
Theorem last_write_wins c key calls :
  startswith "config." key = false →
  (∀ v, last_eager calls = Some v →
        (require (provide_all c key calls) key).1 = Return v) ∧
  (∀ f, last_eager calls = None → _container c !! key = None →
        last_lazy calls = Some f →
        (require (provide_all c key calls) key).1 = call f).
Proof.
  intros Hk. split.
  - intros v Hv.
    rewrite (require_stored _ key v); [done|done|].
    by rewrite provide_all_container, Hv.
  - intros f He Hc Hf. apply require_lazy; [done| |].
    + by rewrite provide_all_container, He.
    + by rewrite provide_all_providers, Hf.
Qed.

Lemma last_write_wins_witness :
  startswith "config." "db" = false ∧
  (require (provide_all (new ∅) "db"
     [(PyInt 1, false); (PyFunc 0 (Returns (PyInt 2)), true); (PyInt 3, false)])
     "db").1 = Return (PyInt 3) ∧
  (require (provide_all (new ∅) "db"
     [(PyFunc 0 (Returns (PyInt 1)), true); (PyFunc 1 (Returns (PyInt 2)), true)])
     "db").1 = Return (PyInt 2).
Proof.
  split; [reflexivity|]. split.
  - apply (proj1 (last_write_wins (new ∅) "db"
      [(PyInt 1, false); (PyFunc 0 (Returns (PyInt 2)), true); (PyInt 3, false)]
      eq_refl)).
    reflexivity.
  - apply (proj2 (last_write_wins (new ∅) "db"
      [(PyFunc 0 (Returns (PyInt 1)), true); (PyFunc 1 (Returns (PyInt 2)), true)]
      eq_refl) (PyFunc 1 (Returns (PyInt 2)))); reflexivity.
Defined.

(** C4, as stated, fails in two ways.  A lazy entry under a key of the
    [config.] namespace is never consulted: [require] raises the dependency
    error instead of returning a memoized result.  And a constructor that
    raises leaves nothing memoized, so that the next [require] calls it
    again. *)
Lemma lazy_at_most_once_fails :
  (require_many 1 (provide (new ∅) "config.x" (PyFunc 7 (Returns (PyInt 1))) true)
     "config.x").1 = [Raise (DependencyError "config.x")] ∧
  _invoked (require_many 2 (provide (new ∅) "db" (PyFunc 7 (RaisesExc 1)) true)
     "db").2 = [7; 7].
Proof. split; by vm_compute. Qed.

(** C4, amended: for every key registered lazily with a constructor that
    returns a value, the constructor is called at most once across any number
    of [require(key)] calls on the same Context; when the key is outside the
    [config.] namespace, every such call returns the same value, the one held
    in the container: the constructor's memoized result, or the value stored
    for the key before the first call. *)
Theorem lazy_memoized c key fid v n :
  _providers c !! key = Some (PyFunc fid (Returns v)) →
  (∃ extra, _invoked (require_many n c key).2 = _invoked c ++ extra ∧
            length extra ≤ 1 ∧ Forall (eq fid) extra) ∧
  (startswith "config." key = false →
   (require_many n c key).1
   = replicate n (Return (default v (_container c !! key)))).
Proof.
  intros Hp.
  assert (Hnil : ∀ l : list nat,
    ∃ extra, l = l ++ extra ∧ length extra ≤ 1 ∧ Forall (eq fid) extra).
  { intros l. exists []. rewrite app_nil_r. repeat split; [simpl; lia|constructor]. }
  destruct (startswith "config." key) eqn:Hk.
  { split; [|done]. rewrite require_many_config by done. apply Hnil. }
  destruct (_container c !! key) as [w|] eqn:Hc.
  { rewrite (require_many_stored n c key w) by done. split; [|done].
    apply Hnil. }
  destruct n as [|n].
  { split; [|done]. apply Hnil. }
  simpl. unfold require. rewrite Hk, Hc, Hp.
  set (c1 := mkContext _ _ _ _).
  rewrite (require_many_stored n c1 key v);
    [|done|by simpl; rewrite lookup_insert_eq].
  simpl. split; [|done].
  exists [fid]. repeat split; [simpl; lia|by constructor].
Qed.

Lemma lazy_memoized_witness :
  let c := provide (new ∅) "db" (PyFunc 7 (Returns (PyInt 5))) true in
  _providers c !! "db" = Some (PyFunc 7 (Returns (PyInt 5))) ∧
  startswith "config." "db" = false ∧
  (require_many 3 c "db").1 = replicate 3 (Return (PyInt 5)).
Proof.
  simpl. split; [reflexivity|]. split; [reflexivity|].
  apply (proj2 (lazy_memoized
    (provide (new ∅) "db" (PyFunc 7 (Returns (PyInt 5))) true)
    "db" 7 (PyInt 5) 3 eq_refl) eq_refl).
Defined.

(** The round trip of the specification: a Context built with the
    configuration [{"port": 8080}]; [require("config.port")] returns [8080]
    and [require("config.missing")] fails with the dependency error. *)
Lemma config_round_trip :
  let c := new {[ "port"%string := PyInt 8080 ]} in
  require c "config.port" = (Return (PyInt 8080), c) ∧
  require c "config.missing" = (Raise (DependencyError "config.missing"), c).
Proof. split; by vm_compute. Qed.

End ContainerProps.

(** ** The scope composer *)

Module ComposerProps.
Import Composer.

#[local] Arguments exit_step : simpl never.
#[local] Arguments unwind_step : simpl never.

(** *** Indexing *)

Lemma enumerate_length i cs : length (enumerate i cs) = length cs.
Proof. revert i. induction cs as [|c cs IH]; intros i; simpl; [done|]. by rewrite IH. Qed.

Lemma enumerate_fst i cs : (enumerate i cs).*1 = seq i (length cs).
Proof.
  revert i. induction cs as [|c cs IH]; intros i; simpl; [done|].
  by rewrite IH.
Qed.

Lemma enumerate_lookup i cs k :
  enumerate i cs !! k = (λ c, (i + k, c)) <$> cs !! k.
Proof.
  revert i k. induction cs as [|c cs IH]; intros i [|k]; simpl; try done.
  - by rewrite Nat.add_0_r.
  - rewrite IH. destruct (cs !! k); simpl; [|done].
    do 2 f_equal. lia.
Qed.

Lemma enumerate_take i cs k :
  take k (enumerate i cs) = enumerate i (take k cs).
Proof.
  revert i k. induction cs as [|c cs IH]; intros i [|k]; simpl; try done.
  by rewrite IH.
Qed.

(** The list that a reversed loop runs over, cut at the participant [n]. *)
Lemma reverse_enumerate_split cs n p :
  cs !! n = Some p →
  reverse (enumerate 0 cs) =
  reverse (drop (S n) (enumerate 0 cs)) ++ (n, p) :: reverse (take n (enumerate 0 cs)).
Proof.
  intros Hp.
  assert (He : enumerate 0 cs !! n = Some (n, p))
    by (by rewrite enumerate_lookup, Hp).
  rewrite <- (take_drop_middle _ _ _ He) at 1.
  by rewrite reverse_app, reverse_cons, <- app_assoc.
Qed.

Lemma take_enumerate_split cs i n p :
  cs !! n = Some p → n < i →
  reverse (take i (enumerate 0 cs)) =
  reverse (drop (S n) (take i (enumerate 0 cs)))
  ++ (n, p) :: reverse (take n (enumerate 0 cs)).
Proof.
  intros Hp Hn.
  assert (He : take i (enumerate 0 cs) !! n = Some (n, p)).
  { rewrite lookup_take_lt by done. by rewrite enumerate_lookup, Hp. }
  rewrite <- (take_drop_middle _ _ _ He) at 1.
  rewrite reverse_app, reverse_cons, <- app_assoc.
  by rewrite take_take, Nat.min_l by lia.
Qed.

(** *** The loops compose *)

Lemma exit_loop_app l1 l2 st :
  exit_loop (l1 ++ l2) st =
  match exit_loop l1 st with
  | Next st' => exit_loop l2 st'
  | Escaped j st' => Escaped j st'
  end.
Proof.
  revert st. induction l1 as [|jc l1 IH]; intros st; simpl; [done|].
  destruct (exit_step st jc); [apply IH|done].
Qed.

Lemma unwind_loop_app l1 l2 st :
  unwind_loop (l1 ++ l2) st =
  match unwind_loop l1 st with
  | Next st' => unwind_loop l2 st'
  | Escaped j st' => Escaped j st'
  end.
Proof.
  revert st. induction l1 as [|jc l1 IH]; intros st; simpl; [done|].
  destruct (unwind_step st jc); [apply IH|done].
Qed.

(** *** Which calls a loop makes *)

(** Every iteration makes exactly one call, on the participant of that
    iteration, whether the iteration completes or is left by the
    [AttributeError]. *)
Lemma exit_step_calls st j p :
  ∃ ev, event_ctx ev = j ∧
    match exit_step st (j, p) with
    | Next st' | Escaped _ st' => calls st' = calls st ++ [ev]
    end.
Proof.
  unfold exit_step.
  destruct (current_error st) as [c|] eqn:Hc.
  - exists (Athrow j c). split; [done|].
    destruct (on_athrow p c) as [|[ret|[value|]|id]]; simpl; try done.
    + by destruct (decide _).
    + by destruct (decide _).
    + by destruct (truthy value); simpl; [destruct (decide _)|].
    + by destruct (decide _).
  - exists (Asend j). split; [done|].
    destruct (on_asend p) as [ret|[value|]|id]; simpl; try done.
    by destruct (truthy value).
Qed.

Lemma unwind_step_calls st j p :
  ∃ ev, event_ctx ev = j ∧
    match unwind_step st (j, p) with
    | Next st' | Escaped _ st' => uw_calls st' = uw_calls st ++ [ev]
    end.
Proof.
  exists (Athrow j (uw_current_error st)). split; [done|].
  unfold unwind_step.
  destruct (on_athrow p (uw_current_error st)) as [|[ret|[value|]|id]];
    simpl; try done; try by destruct (decide _).
  by destruct (truthy value); destruct (decide _).
Qed.

Lemma exit_step_escaped st j p k st' :
  exit_step st (j, p) = Escaped k st' → k = j.
Proof.
  unfold exit_step.
  destruct (current_error st) as [c|];
    [destruct (on_athrow p c) as [|[ret|[value|]|id]]
    |destruct (on_asend p) as [ret|[value|]|id]];
    simpl; try discriminate; try congruence.
  all: by destruct (truthy value).
Qed.

Lemma unwind_step_escaped st j p k st' :
  unwind_step st (j, p) = Escaped k st' → k = j.
Proof.
  unfold unwind_step.
  destruct (on_athrow p (uw_current_error st)) as [|[ret|[value|]|id]];
    simpl; try discriminate; try congruence.
  by destruct (truthy value).
Qed.

(** A loop that runs to its end has called every participant of its list,
    once each and in the order of the list. *)
Lemma exit_loop_trace cs st st' :
  exit_loop cs st = Next st' →
  event_ctx <$> calls st' = (event_ctx <$> calls st) ++ cs.*1.
Proof.
  revert st. induction cs as [|[j p] cs IH]; intros st; simpl.
  - intros [= <-]. by rewrite app_nil_r.
  - destruct (exit_step_calls st j p) as (ev & Hev & Hstep).
    destruct (exit_step st (j, p)) as [st1|]; simpl; intros H;
      [|discriminate H].
    rewrite (IH _ H), Hstep, fmap_app. simpl.
    by rewrite Hev, <- app_assoc.
Qed.


(** Only a bare [StopAsyncIteration] makes a loop stop early. *)
Lemma exit_loop_completes cs st :
  Forall (λ jc, carries_value jc.2) cs → ∃ st', exit_loop cs st = Next st'.
Proof.
  intros Hcs. revert st.
  induction Hcs as [|[j p] cs [Hs Ht] _ IH]; intros st; simpl; [by eexists|].
  assert (∃ st1, exit_step st (j, p) = Next st1) as [st1 ->]; [|apply IH].
  unfold exit_step. simpl in *.
  destruct (current_error st) as [c|].
  - specialize (Ht c).
    destruct (on_athrow p c) as [|[ret|[value|]|id]]; simpl; eauto.
    + destruct (truthy value); eauto.
    + done.
  - destruct (on_asend p) as [ret|[value|]|id]; simpl; eauto.
    + destruct (truthy value); eauto.
    + done.
Qed.


(** Whatever happens, the calls of a loop follow the order of its list: no
    participant is skipped over or called twice. *)
Lemma exit_loop_trace_prefix cs st :
  match exit_loop cs st with
  | Next st' | Escaped _ st' =>
      ∃ k, event_ctx <$> calls st' = (event_ctx <$> calls st) ++ take k cs.*1
  end.
Proof.
  revert st. induction cs as [|[j p] cs IH]; intros st; simpl.
  - exists 0. by rewrite app_nil_r.
  - destruct (exit_step_calls st j p) as (ev & Hev & Hstep).
    destruct (exit_step st (j, p)) as [st1|k st1].
    + specialize (IH st1).
      destruct (exit_loop cs st1) as [st2|k st2]; destruct IH as [m IH];
        exists (S m); rewrite IH, Hstep, fmap_app; simpl;
        by rewrite Hev, <- app_assoc.
    + exists 1. rewrite Hstep, fmap_app. simpl. by rewrite Hev.
Qed.

Lemma unwind_loop_trace_prefix cs st :
  match unwind_loop cs st with
  | Next st' | Escaped _ st' =>
      ∃ k, event_ctx <$> uw_calls st'
           = (event_ctx <$> uw_calls st) ++ take k cs.*1
  end.
Proof.
  revert st. induction cs as [|[j p] cs IH]; intros st; simpl.
  - exists 0. by rewrite app_nil_r.
  - destruct (unwind_step_calls st j p) as (ev & Hev & Hstep).
    destruct (unwind_step st (j, p)) as [st1|k st1].
    + specialize (IH st1).
      destruct (unwind_loop cs st1) as [st2|k st2]; destruct IH as [m IH];
        exists (S m); rewrite IH, Hstep, fmap_app; simpl;
        by rewrite Hev, <- app_assoc.
    + exists 1. rewrite Hstep, fmap_app. simpl. by rewrite Hev.
Qed.

(** The first loop of [__aenter__] calls the participants in the order of
    the list, up to and including the one it breaks at. *)
Lemma enter_loop_trace cs calls0 :
  match enter_loop cs calls0 with
  | (calls1, None) => calls1 = calls0 ++ (Asend <$> cs.*1)
  | (calls1, Some (i, e)) =>
      ∃ k p, cs !! k = Some (i, p) ∧
             calls1 = calls0 ++ (Asend <$> (take (S k) cs).*1)
  end.
Proof.
  revert calls0. induction cs as [|[i p] cs IH]; intros calls0; simpl.
  - by rewrite app_nil_r.
  - assert (Hnext :
      match enter_loop cs (calls0 ++ [Asend i]) with
      | (calls1, None) => calls1 = calls0 ++ Asend i :: (Asend <$> cs.*1)
      | (calls1, Some (i0, _)) =>
          ∃ k p0, ((i, p) :: cs) !! k = Some (i0, p0) ∧
            calls1 = calls0 ++ (Asend <$> (take (S k) ((i, p) :: cs)).*1)
      end).
    { specialize (IH (calls0 ++ [Asend i])).
      destruct (enter_loop cs (calls0 ++ [Asend i])) as [calls1 [[i0 e]|]].
      - destruct IH as (k & p0 & Hk & ->). exists (S k), p0.
        split; [done|]. by rewrite <- app_assoc.
      - rewrite IH. by rewrite <- app_assoc. }
    assert (Hbreak : ∃ k p0, ((i, p) :: cs) !! k = Some (i, p0) ∧
      calls0 ++ [Asend i]
      = calls0 ++ (Asend <$> (take (S k) ((i, p) :: cs)).*1)).
    { exists 0, p. split; [done|]. simpl. by try rewrite take_0. }
    destruct (on_enter p) as [ret|value|id]; try exact Hbreak.
    destruct (is_None ret); [exact Hnext|exact Hbreak].
Qed.

(** Where the first loop breaks. *)
Lemma enter_loop_enumerate cs calls1 i e :
  enter_loop (enumerate 0 cs) [] = (calls1, Some (i, e)) →
  i < length cs ∧ calls1 = Asend <$> seq 0 (S i).
Proof.
  intros H. pose proof (enter_loop_trace (enumerate 0 cs) []) as Ht.
  rewrite H in Ht. destruct Ht as (k & p & Hk & ->).
  rewrite enumerate_lookup in Hk.
  destruct (cs !! k) as [q|] eqn:Hq; [|done]. simpl in Hk.
  injection Hk as <- <-. split; [by eapply lookup_lt_Some|].
  apply lookup_lt_Some in Hq.
  rewrite app_nil_l, enumerate_take, enumerate_fst, length_take.
  by rewrite Nat.min_l by lia.
Qed.

Lemma enter_loop_enumerate_all cs calls1 :
  enter_loop (enumerate 0 cs) [] = (calls1, None) →
  calls1 = Asend <$> seq 0 (length cs).
Proof.
  intros H. pose proof (enter_loop_trace (enumerate 0 cs) []) as Ht.
  rewrite H in Ht. by rewrite Ht, enumerate_fst.
Qed.

(** *** C1: the order of the calls *)

(** [__aenter__] visits the participants strictly in the order of the list:
    its calls start with [asend] on the participants [0], [1], ... and, when
    it returns, that is all of them; what follows, when it does not, are the
    [athrow] calls of the unwinding. *)
Lemma aenter_visits_in_order contexts h :
  ∃ k unwound,
    trace (__aenter__ contexts h) = (Asend <$> seq 0 k) ++ unwound ∧
    k ≤ length contexts ∧
    Forall (λ ev, ∃ j e, ev = Athrow j e ∧ j < k) unwound ∧
    (raises (__aenter__ contexts h) = None → k = length contexts ∧ unwound = []).
Proof.
  unfold __aenter__.
  destruct (enter_loop (enumerate 0 contexts) []) as [calls1 [[i e]|]] eqn:He.
  - apply enter_loop_enumerate in He as [Hi ->].
    set (st0 := mkUnwinding e e h (Asend <$> seq 0 (S i))).
    assert (Hall : ∀ cs st,
      Forall (λ jc, jc.1 < S i) cs →
      match unwind_loop cs st with
      | Next st' | Escaped _ st' =>
          ∃ more, uw_calls st' = uw_calls st ++ more ∧
            Forall (λ ev, ∃ j e, ev = Athrow j e ∧ j < S i) more
      end).
    { clear. intros cs. induction cs as [|[j p] cs IH]; intros st Hcs; simpl.
      - exists []. by rewrite app_nil_r.
      - apply Forall_cons in Hcs as [Hj Hcs]. simpl in Hj.
        assert (Hstep : match unwind_step st (j, p) with
          | Next st' | Escaped _ st' =>
              uw_calls st' = uw_calls st ++ [Athrow j (uw_current_error st)]
          end).
        { unfold unwind_step.
          destruct (on_athrow p (uw_current_error st)) as [|[ret|[value|]|id]];
            simpl; try done; try by destruct (decide _).
          by destruct (truthy value); destruct (decide _). }
        destruct (unwind_step st (j, p)) as [st1|k st1].
        + specialize (IH st1 Hcs).
          destruct (unwind_loop cs st1) as [st2|k st2];
            destruct IH as (more & -> & Hmore);
            exists (Athrow j (uw_current_error st) :: more);
            (split; [by rewrite Hstep, <- app_assoc|]);
            apply Forall_cons; eauto.
        + exists [Athrow j (uw_current_error st)]. split; [done|].
          apply Forall_cons; eauto. }
    assert (Hlt : Forall (λ jc : nat * participant, jc.1 < S i)
                         (reverse (take i (enumerate 0 contexts)))).
    { apply Forall_reverse, Forall_forall. intros [j' q] Hin.
      apply list_elem_of_lookup in Hin as [m Hm].
      apply lookup_take_Some in Hm as [Hm Hlt].
      rewrite enumerate_lookup in Hm.
      destruct (contexts !! m); simplify_eq/=; lia. }
    specialize (Hall _ st0 Hlt).
    destruct (unwind_loop _ st0) as [st'|j st']; simpl;
      destruct Hall as (more & -> & Hmore);
      exists (S i), more; simpl; repeat split; try done; lia.
  - apply enter_loop_enumerate_all in He as ->. simpl.
    exists (length contexts), []. rewrite app_nil_r. repeat split; done.
Qed.

(** When no participant finishes with a bare [StopAsyncIteration], the exit
    pass resumes every participant exactly once, in the reverse of the order
    of the list, whatever the outcome of the body was. *)
Lemma aexit_visits_all_reversed contexts exc h :
  Forall carries_value contexts →
  event_ctx <$> trace (__aexit__ contexts exc h)
  = reverse (seq 0 (length contexts)).
Proof.
  intros Hcs. unfold __aexit__.
  set (st := mkExiting _ _ _ _).
  destruct (exit_loop_completes (reverse (enumerate 0 contexts)) st)
    as [st' Hst'].
  { apply Forall_reverse, Forall_forall. intros [j p] Hin.
    rewrite Forall_forall in Hcs. apply Hcs. simpl.
    apply list_elem_of_lookup in Hin as [m Hm].
    rewrite enumerate_lookup in Hm.
    destruct (contexts !! m) eqn:E; simplify_eq/=.
    by eapply list_elem_of_lookup_2. }
  rewrite Hst'. apply exit_loop_trace in Hst'.
  assert (event_ctx <$> calls st' = reverse (seq 0 (length contexts))) as <-.
  { rewrite Hst'. simpl. by rewrite fmap_reverse, enumerate_fst. }
  destruct (decide _); [done|]. by destruct (current_error st').
Qed.

(** In every case the calls of the exit pass follow the reverse order from
    the last participant downwards, each participant called at most once. *)
Lemma aexit_visits_reversed_prefix contexts exc h :
  ∃ k, event_ctx <$> trace (__aexit__ contexts exc h)
       = take k (reverse (seq 0 (length contexts))).
Proof.
  unfold __aexit__. set (st := mkExiting _ _ _ _).
  pose proof (exit_loop_trace_prefix (reverse (enumerate 0 contexts)) st) as H.
  rewrite fmap_reverse, enumerate_fst in H.
  destruct (exit_loop _ st) as [st'|j st']; destruct H as [k H]; exists k.
  - destruct (decide _); [done|]. by destruct (current_error st').
  - done.
Qed.

(** C1, at the input where the code departs from it: two native
    asynchronous generators and a body that succeeded.  The participant [1]
    finishes when resumed; reading [stop.value] raises [AttributeError], which
    leaves the loop, and the participant [0] is never resumed. *)
Theorem aexit_native_pair_aborts :
  raises (__aexit__ [native; native] None no_causes) = Some (AttributeError 1) ∧
  trace (__aexit__ [native; native] None no_causes) = [Asend 1].
Proof. split; reflexivity. Qed.

(** *** Single iterations of the loop of [__aexit__] *)

Lemma set_cause_same e c h : set_cause e c h e = Some c.
Proof. unfold set_cause. by rewrite decide_True. Qed.

Lemma exit_step_throws st j p c id :
  current_error st = Some c →
  on_athrow p c = Reacts (Throws id) →
  Ext id ≠ c →
  exit_step st (j, p) =
  Next (mkExiting (Some (Ext id)) (Some (Ext id))
          (set_cause (Ext id) c (cause st)) (calls st ++ [Athrow j c])).
Proof.
  intros Hc Hr Hne. unfold exit_step. rewrite Hc, Hr.
  by rewrite decide_False.
Qed.

Lemma exit_step_propagates st j p e :
  current_error st = Some e →
  on_athrow p e = Propagates →
  exit_step st (j, p) =
  Next (mkExiting (Some e) (Some e) (cause st) (calls st ++ [Athrow j e])).
Proof.
  intros Hc Hr. unfold exit_step. rewrite Hc, Hr.
  by rewrite decide_True.
Qed.

Lemma exit_step_swallows st j p c value :
  current_error st = Some c →
  on_athrow p c = Reacts (Stops (Some value)) →
  truthy value = false →
  exit_step st (j, p) =
  Next (mkExiting None None (cause st) (calls st ++ [Athrow j c])).
Proof. intros Hc Hr Hv. unfold exit_step. by rewrite Hc, Hr, Hv. Qed.

Lemma exit_step_clean st j p value :
  current_error st = None →
  on_asend p = Stops (Some value) →
  truthy value = false →
  exit_step st (j, p) =
  Next (mkExiting None None (cause st) (calls st ++ [Asend j])).
Proof. intros Hc Hr Hv. unfold exit_step. by rewrite Hc, Hr, Hv. Qed.

Lemma exit_step_violation st j p why :
  exit_violation (resumed st p) = Some why →
  ∃ st1, exit_step st (j, p) = Next st1 ∧
    error st1 = Some (RuntimeError why j) ∧
    current_error st1 = Some (RuntimeError why j) ∧
    (current_error st = None → cause st1 = cause st) ∧
    (∀ c, current_error st = Some c → RuntimeError why j ≠ c →
          cause st1 = set_cause (RuntimeError why j) c (cause st)).
Proof.
  unfold resumed, exit_step.
  destruct (current_error st) as [c|] eqn:Hc.
  - destruct (on_athrow p c) as [|[ret|[value|]|id]]; simpl; try done.
    + intros [= <-].
      destruct (decide (RuntimeError NotStop j = c)) as [Heq|Hne];
        eexists; (split; [done|]); simpl; repeat split; try done;
        try (by rewrite Heq); intros c' [= <-]; done.
    + destruct (truthy value); [|done]. intros [= <-].
      destruct (decide (RuntimeError ReturnNonNone j = c)) as [Heq|Hne];
        eexists; (split; [done|]); simpl; repeat split; try done;
        try (by rewrite Heq); intros c' [= <-]; done.
  - destruct (on_asend p) as [ret|[value|]|id]; simpl; try done.
    + intros [= <-]. eexists. split; [done|]. by simpl.
    + destruct (truthy value); [|done]. intros [= <-].
      eexists. split; [done|]. by simpl.
Qed.

(** After an iteration the two variables agree, and the current error is the
    previous one, an object from outside, or the [RuntimeError] made for the
    participant of this iteration. *)
Lemma exit_step_current st j p st1 :
  exit_step st (j, p) = Next st1 →
  current_error st1 = error st1 ∧
  ∀ e, current_error st1 = Some e →
       current_error st = Some e ∨ (∃ id, e = Ext id) ∨
       (∃ why, e = RuntimeError why j).
Proof.
  unfold exit_step.
  destruct (current_error st) as [c|] eqn:Hc.
  - destruct (on_athrow p c) as [|[ret|[value|]|id]]; simpl;
      [rewrite decide_True by done| |destruct (truthy value)| |];
      repeat case_decide; try discriminate;
      intros [= <-]; simpl; (split; [by subst|]);
      intros e' [= <-]; eauto.
  - destruct (on_asend p) as [ret|[value|]|id]; simpl;
      [|destruct (truthy value)| |]; try discriminate;
      intros [= <-]; simpl; (split; [done|]);
      intros e' [= <-]; eauto.
Qed.

(** *** Runs of the loop of [__aexit__] *)

(** Participants that let the injected error propagate leave it current. *)
Lemma exit_loop_propagates cs st e :
  current_error st = Some e →
  Forall (λ jc, on_athrow jc.2 e = Propagates) cs →
  ∃ st', exit_loop cs st = Next st' ∧
    current_error st' = Some e ∧ cause st' = cause st.
Proof.
  intros Hc Hcs. revert st Hc.
  induction Hcs as [|[j p] cs Hp _ IH]; intros st Hc; simpl; [by eexists|].
  rewrite (exit_step_propagates st j p e Hc Hp).
  destruct (IH (mkExiting (Some e) (Some e) (cause st)
                  (calls st ++ [Athrow j e])) eq_refl)
    as (st' & -> & ? & ?).
  by eexists.
Qed.

(** Participants that finish cleanly when resumed normally leave no error
    behind, and are each resumed with [asend]. *)
Lemma exit_loop_clean cs st :
  current_error st = None →
  Forall (λ jc, ∃ value, on_asend jc.2 = Stops (Some value) ∧
                         truthy value = false) cs →
  ∃ st', exit_loop cs st = Next st' ∧
    current_error st' = None ∧ cause st' = cause st ∧
    calls st' = calls st ++ (Asend <$> cs.*1).
Proof.
  intros Hc Hcs. revert st Hc.
  induction Hcs as [|[j p] cs (value & Hp & Hv) _ IH]; intros st Hc; simpl.
  { eexists. by rewrite app_nil_r. }
  rewrite (exit_step_clean st j p value Hc Hp Hv).
  destruct (IH (mkExiting None None (cause st) (calls st ++ [Asend j])) eq_refl)
    as (st' & -> & ? & ? & Hcalls).
  eexists. repeat split; try done. rewrite Hcalls. simpl.
  by rewrite <- app_assoc.
Qed.

(** The current error was made by the pass for a participant already
    resumed, or comes from outside. *)
Lemma exit_loop_made_after n cs st st' :
  Forall (λ jc, n < jc.1) cs →
  (∀ c, current_error st = Some c → made_after n c) →
  exit_loop cs st = Next st' →
  ∀ c, current_error st' = Some c → made_after n c.
Proof.
  intros Hcs. revert st.
  induction Hcs as [|[j p] cs Hj _ IH]; intros st Hst; simpl.
  - by intros [= <-].
  - destruct (exit_step st (j, p)) as [st1|] eqn:Hstep; [|done].
    apply IH. intros c Hc.
    destruct (exit_step_current _ _ _ _ Hstep) as [_ Hcur].
    destruct (Hcur c Hc) as [Hold|[[id ->]|[why ->]]]; simpl; eauto.
Qed.

Lemma drop_enumerate_after n cs :
  Forall (λ jc : nat * participant, n < jc.1) (drop (S n) (enumerate 0 cs)).
Proof.
  apply Forall_forall. intros [j p] Hin.
  apply list_elem_of_lookup in Hin as [m Hm].
  rewrite lookup_drop, enumerate_lookup in Hm.
  destruct (cs !! (S n + m)); simplify_eq/=. lia.
Qed.

Lemma exit_before_made_after contexts exc h n st :
  exit_before contexts exc h n = Next st →
  ∀ c, current_error st = Some c → made_after n c.
Proof.
  unfold exit_before. apply exit_loop_made_after.
  - apply Forall_reverse, drop_enumerate_after.
  - simpl. intros c Hc. by destruct exc; simplify_eq/=.
Qed.

Lemma take_enumerate_propagates contexts n e :
  (∀ m q, m < n → contexts !! m = Some q → on_athrow q e = Propagates) →
  Forall (λ jc : nat * participant, on_athrow jc.2 e = Propagates)
         (reverse (take n (enumerate 0 contexts))).
Proof.
  intros H. apply Forall_reverse, Forall_forall. intros [j p] Hin.
  apply list_elem_of_lookup in Hin as [m Hm].
  apply lookup_take_Some in Hm as [Hm Hlt].
  rewrite enumerate_lookup in Hm.
  destruct (contexts !! m) eqn:E; simplify_eq/=. eauto.
Qed.

(** The error that is current after the participant [n] is what the
    lifecycle ends with when the participants resumed after it let it
    propagate. *)
Lemma aexit_reported contexts exc h n p st st1 e :
  contexts !! n = Some p →
  exit_before contexts exc h n = Next st →
  exit_step st (n, p) = Next st1 →
  current_error st1 = Some e →
  (∀ m q, m < n → contexts !! m = Some q → on_athrow q e = Propagates) →
  reported exc (__aexit__ contexts exc h) = Some (Error e) ∧
  final_causes (__aexit__ contexts exc h) = cause st1.
Proof.
  intros Hp Hst Hstep He Hprop. unfold __aexit__, exit_before, exit_init in *.
  rewrite (reverse_enumerate_split _ _ _ Hp), exit_loop_app, Hst. simpl.
  rewrite Hstep.
  destruct (exit_loop_propagates _ st1 e He
              (take_enumerate_propagates contexts n e Hprop))
    as (st' & -> & Hcur & Hcause).
  unfold reported. destruct (decide (current_error st' = Ext <$> exc)) as [Heq|Hne].
  - simpl. rewrite <- Heq, Hcur. done.
  - rewrite Hcur. simpl. done.
Qed.

(** *** The unwinding loop of [__aenter__] *)

Lemma unwind_step_throws st j p id :
  on_athrow p (uw_current_error st) = Reacts (Throws id) →
  Ext id ≠ uw_current_error st →
  unwind_step st (j, p) =
  Next (mkUnwinding (Ext id) (Ext id)
          (set_cause (Ext id) (uw_current_error st) (uw_cause st))
          (uw_calls st ++ [Athrow j (uw_current_error st)])).
Proof.
  intros Hr Hne. unfold unwind_step. rewrite Hr. by rewrite decide_False.
Qed.

Lemma unwind_step_propagates st j p :
  on_athrow p (uw_current_error st) = Propagates →
  unwind_step st (j, p) =
  Next (mkUnwinding (uw_current_error st) (uw_current_error st) (uw_cause st)
          (uw_calls st ++ [Athrow j (uw_current_error st)])).
Proof. intros Hr. unfold unwind_step. rewrite Hr. by rewrite decide_True. Qed.

Lemma unwind_step_violation st j p why :
  exit_violation (on_athrow p (uw_current_error st)) = Some why →
  RuntimeError why j ≠ uw_current_error st →
  unwind_step st (j, p) =
  Next (mkUnwinding (RuntimeError why j) (RuntimeError why j)
          (set_cause (RuntimeError why j) (uw_current_error st) (uw_cause st))
          (uw_calls st ++ [Athrow j (uw_current_error st)])).
Proof.
  unfold unwind_step.
  destruct (on_athrow p (uw_current_error st)) as [|[ret|[value|]|id]];
    simpl; try done.
  - intros [= <-] Hne. by rewrite decide_False.
  - destruct (truthy value); [|done]. intros [= <-] Hne.
    by rewrite decide_False.
Qed.

(** The two variables agree throughout the unwinding, and the current error
    is the previous one, an object from outside, or the [RuntimeError] made
    for the participant of this iteration. *)
Lemma unwind_step_current st j p st1 :
  unwind_step st (j, p) = Next st1 →
  uw_error st = uw_current_error st →
  uw_error st1 = uw_current_error st1 ∧
  (uw_current_error st1 = uw_current_error st ∨
   (∃ id, uw_current_error st1 = Ext id) ∨
   (∃ why, uw_current_error st1 = RuntimeError why j)).
Proof.
  unfold unwind_step. intros Hstep Heq. rewrite Heq in Hstep.
  destruct (on_athrow p (uw_current_error st)) as [|[ret|[value|]|id]];
    [|  |destruct (truthy value)| |];
    repeat case_decide; try discriminate;
    injection Hstep as <-; simpl; eauto.
Qed.

Lemma unwind_loop_propagates cs st :
  Forall (λ jc, on_athrow jc.2 (uw_current_error st) = Propagates) cs →
  ∃ st', unwind_loop cs st = Next st' ∧
    uw_current_error st' = uw_current_error st ∧
    uw_cause st' = uw_cause st.
Proof.
  revert st. induction cs as [|[j p] cs IH]; intros st Hcs; simpl.
  { eexists. eauto. }
  apply Forall_cons in Hcs as [Hp Hcs]. simpl in Hp.
  rewrite (unwind_step_propagates st j p Hp).
  destruct (IH (mkUnwinding (uw_current_error st) (uw_current_error st)
                  (uw_cause st)
                  (uw_calls st ++ [Athrow j (uw_current_error st)])) Hcs)
    as (st' & -> & Hcur & Hcause).
  by eexists.
Qed.

Lemma unwind_loop_made_after n cs st st' :
  Forall (λ jc, n < jc.1) cs →
  uw_error st = uw_current_error st →
  made_after n (uw_current_error st) →
  unwind_loop cs st = Next st' →
  uw_error st' = uw_current_error st' ∧ made_after n (uw_current_error st').
Proof.
  intros Hcs. revert st.
  induction Hcs as [|[j p] cs Hj _ IH]; intros st Heq Hst; simpl.
  - by intros [= <-].
  - destruct (unwind_step st (j, p)) as [st1|] eqn:Hstep; [|done].
    destruct (unwind_step_current _ _ _ _ Hstep Heq) as [Heq1 Hcur].
    apply IH; [done|].
    destruct Hcur as [->|[[id ->]|[why ->]]]; simpl; eauto.
Qed.

(** What the first loop breaks with. *)
Lemma enter_loop_error cs calls0 calls1 i e :
  enter_loop cs calls0 = (calls1, Some (i, e)) →
  (∃ id, e = Ext id) ∨ (∃ why, e = RuntimeError why i).
Proof.
  revert calls0. induction cs as [|[j p] cs IH]; intros calls0; simpl; [done|].
  destruct (on_enter p) as [ret|value|id]; [destruct (is_None ret)| |];
    try (intros [= <- <- <-]; eauto).
  apply IH.
Qed.

(** The first loop runs through participants that suspend with None and
    breaks at the first protocol violation. *)
Lemma enter_loop_violation i before p after calls0 why :
  Forall (λ q, on_enter q = Yields PyNone) before →
  enter_violation (on_enter p) = Some why →
  enter_loop (enumerate i (before ++ p :: after)) calls0 =
  (calls0 ++ (Asend <$> seq i (S (length before))),
   Some (i + length before, RuntimeError why (i + length before))).
Proof.
  intros Hb Hp. revert i calls0.
  induction Hb as [|q before Hq _ IH]; intros i calls0; simpl.
  - rewrite Nat.add_0_r. unfold enter_violation in Hp.
    destruct (on_enter p) as [ret|value|id];
      [destruct (is_None ret)| |]; by simplify_eq.
  - rewrite Hq. simpl. rewrite IH, <- app_assoc. simpl.
    do 4 f_equal; lia.
Qed.

Lemma unwind_before_made_after contexts h n st :
  unwind_before contexts h n = Some (Next st) →
  uw_error st = uw_current_error st ∧ made_after n (uw_current_error st).
Proof.
  unfold unwind_before.
  destruct (enter_loop (enumerate 0 contexts) []) as [calls1 [[i e]|]] eqn:He;
    [|done].
  case_decide as Hn; [|done]. intros [= Hst].
  eapply unwind_loop_made_after; [| | |exact Hst]; simpl; [|done|].
  - apply Forall_reverse, Forall_forall. intros [j p] Hin.
    apply list_elem_of_lookup in Hin as [m Hm].
    rewrite lookup_drop in Hm. apply lookup_take_Some in Hm as [Hm _].
    rewrite enumerate_lookup in Hm.
    destruct (contexts !! (S n + m)); simplify_eq/=. lia.
  - destruct (enter_loop_error _ _ _ _ _ He) as [[id ->]|[why ->]]; simpl;
      [done|lia].
Qed.

(** The error that is current after the participant [n] of the unwinding is
    what [__aenter__] raises when the participants resumed after it let it
    propagate. *)
Lemma aenter_raises contexts h n p st st1 :
  contexts !! n = Some p →
  unwind_before contexts h n = Some (Next st) →
  unwind_step st (n, p) = Next st1 →
  (∀ m q, m < n → contexts !! m = Some q →
          on_athrow q (uw_current_error st1) = Propagates) →
  raises (__aenter__ contexts h) = Some (Error (uw_current_error st1)) ∧
  final_causes (__aenter__ contexts h) = uw_cause st1.
Proof.
  intros Hp Hst Hstep Hprop. unfold __aenter__, unwind_before in *.
  destruct (enter_loop (enumerate 0 contexts) []) as [calls1 [[i e]|]];
    [|done].
  case_decide as Hn; [|done]. injection Hst as Hst.
  rewrite (take_enumerate_split _ _ _ _ Hp Hn), unwind_loop_app, Hst. simpl.
  rewrite Hstep.
  destruct (unwind_loop_propagates _ st1
              (take_enumerate_propagates contexts n _ Hprop))
    as (st' & -> & Hcur & Hcause).
  simpl. by rewrite Hcur, Hcause.
Qed.

(** Without participants both passes succeed at once. *)
Lemma no_participants exc h :
  raises (__aenter__ [] h) = None ∧ raises (__aexit__ [] exc h) = None.
Proof.
  split; [done|]. unfold __aexit__. simpl. by rewrite decide_True.
Qed.

(** When the body succeeded and every participant finishes with a false
    [value], the exit pass returns: the lifecycle ends without error. *)
Lemma aexit_clean contexts h :
  Forall (λ q, ∃ value, on_asend q = Stops (Some value) ∧
                        truthy value = false) contexts →
  raises (__aexit__ contexts None h) = None ∧
  trace (__aexit__ contexts None h)
  = Asend <$> reverse (seq 0 (length contexts)).
Proof.
  intros Hcs. unfold __aexit__.
  destruct (exit_loop_clean (reverse (enumerate 0 contexts))
              (mkExiting None None h []) eq_refl)
    as (st' & Hst' & Hcur & _ & Hcalls).
  { apply Forall_reverse, Forall_forall. intros [j q] Hin.
    rewrite Forall_forall in Hcs. apply Hcs. simpl.
    apply list_elem_of_lookup in Hin as [m Hm].
    rewrite enumerate_lookup in Hm.
    destruct (contexts !! m) eqn:E; simplify_eq/=.
    by eapply list_elem_of_lookup_2. }
  simpl. rewrite Hst', Hcur. rewrite decide_True by done. simpl.
  split; [done|]. rewrite Hcalls. simpl.
  by rewrite fmap_reverse, enumerate_fst.
Qed.

(** *** C5: unwinding after a failed enter *)


(** Every completed iteration of the unwinding chains a newly raised error
    to the error that was current. *)
Lemma unwind_step_chains st j p st1 :
  unwind_step st (j, p) = Next st1 →
  uw_error st1 ≠ uw_current_error st →
  uw_current_error st1 = uw_error st1 ∧
  uw_cause st1 (uw_error st1) = Some (uw_current_error st).
Proof.
  unfold unwind_step. intros Hstep Hne.
  destruct (on_athrow p (uw_current_error st)) as [|[ret|[value|]|id]];
    [|  |destruct (truthy value)| |];
    repeat case_decide; try discriminate;
    injection Hstep as <-; simpl in *; try done;
    by rewrite set_cause_same.
Qed.


(** C5, at the input where the code departs from it: the third of three
    participants fails to enter with [Ext 1]; the second, a native generator
    that catches the injected error, finishes; reading [stop.value] raises
    [AttributeError], which leaves [__aenter__]: the first participant gets
    no exit call, and what is raised has no cause attached. *)
Theorem aenter_native_catching_aborts :
  let r := __aenter__ [native; native_catching; failing_enter 1] no_causes in
  raises r = Some (AttributeError 1) ∧
  trace r = [Asend 0; Asend 1; Asend 2; Athrow 1 (Ext 1)] ∧
  ∀ e, final_causes r e = None.
Proof. repeat split. Qed.

(** *** C6: a new error supersedes the current one *)

(** C6, as stated, fails: the participant [1] is resumed with the handler's
    error [Ext 0] and raises the different object [Ext 1], but the lifecycle
    reports [Ext 2], which the participant [0] raised afterwards. *)
Lemma superseded_error_not_reported :
  let contexts := [failing 2; failing 1] in
  on_athrow (failing 1) (Ext 0) = Reacts (Throws 1) ∧
  trace (__aexit__ contexts (Some 0) no_causes)
  = [Athrow 1 (Ext 0); Athrow 0 (Ext 1)] ∧
  reported (Some 0) (__aexit__ contexts (Some 0) no_causes)
  = Some (Error (Ext 2)) ∧
  reported (Some 0) (__aexit__ contexts (Some 0) no_causes)
  ≠ Some (Error (Ext 1)).
Proof. repeat split. discriminate. Qed.

(** C6, amended: a teardown has one current error at a time.  Whenever a
    participant is resumed with the current error and raises a different
    error object, the new error becomes the current error and the superseded
    one is recorded as its cause, by identity; it is the error the lifecycle
    reports when every participant resumed after it lets it propagate.  This
    holds in the exit pass and in the unwinding of [__aenter__]. *)
Theorem new_error_supersedes contexts h n p id :
  contexts !! n = Some p →
  (∀ exc st c,
     exit_before contexts exc h n = Next st →
     current_error st = Some c →
     on_athrow p c = Reacts (Throws id) →
     Ext id ≠ c →
     ∃ st1, exit_step st (n, p) = Next st1 ∧
       current_error st1 = Some (Ext id) ∧
       cause st1 (Ext id) = Some c ∧
       ((∀ m q, m < n → contexts !! m = Some q →
                on_athrow q (Ext id) = Propagates) →
        reported exc (__aexit__ contexts exc h) = Some (Error (Ext id)) ∧
        final_causes (__aexit__ contexts exc h) (Ext id) = Some c)) ∧
  (∀ st,
     unwind_before contexts h n = Some (Next st) →
     on_athrow p (uw_current_error st) = Reacts (Throws id) →
     Ext id ≠ uw_current_error st →
     ∃ st1, unwind_step st (n, p) = Next st1 ∧
       uw_current_error st1 = Ext id ∧
       uw_cause st1 (Ext id) = Some (uw_current_error st) ∧
       ((∀ m q, m < n → contexts !! m = Some q →
                on_athrow q (Ext id) = Propagates) →
        raises (__aenter__ contexts h) = Some (Error (Ext id)) ∧
        final_causes (__aenter__ contexts h) (Ext id)
        = Some (uw_current_error st))).
Proof.
  intros Hp. split.
  - intros exc st c Hst Hc Hr Hne.
    pose proof (exit_step_throws st n p c id Hc Hr Hne) as Hstep.
    eexists. split; [exact Hstep|]. simpl.
    split; [done|]. split; [apply set_cause_same|].
    intros Hprop.
    destruct (aexit_reported contexts exc h n p st _ (Ext id) Hp Hst Hstep
                eq_refl Hprop) as [Hrep Hfin].
    split; [done|]. rewrite Hfin. apply set_cause_same.
  - intros st Hst Hr Hne.
    pose proof (unwind_step_throws st n p id Hr Hne) as Hstep.
    eexists. split; [exact Hstep|]. simpl.
    split; [done|]. split; [apply set_cause_same|].
    intros Hprop.
    destruct (aenter_raises contexts h n p st _ Hp Hst Hstep Hprop)
      as [Hrep Hfin].
    split; [done|]. rewrite Hfin. apply set_cause_same.
Qed.

Lemma new_error_supersedes_witness :
  (let contexts := [native; failing 1] in
   reported (Some 0) (__aexit__ contexts (Some 0) no_causes)
   = Some (Error (Ext 1)) ∧
   final_causes (__aexit__ contexts (Some 0) no_causes) (Ext 1)
   = Some (Ext 0)) ∧
  (let contexts := [native; failing 1; failing_enter 0] in
   raises (__aenter__ contexts no_causes) = Some (Error (Ext 1)) ∧
   final_causes (__aenter__ contexts no_causes) (Ext 1) = Some (Ext 0)).
Proof.
  split.
  - destruct (proj1 (new_error_supersedes [native; failing 1] no_causes 1
                       (failing 1) 1 eq_refl)
                (Some 0) (exit_init (Some 0) no_causes) (Ext 0)
                eq_refl eq_refl eq_refl)
      as (st1 & _ & _ & _ & Hfinal).
    + discriminate.
    + apply Hfinal. intros [|[|m]] q Hm Hq; [|lia..].
      injection Hq as <-. reflexivity.
  - destruct (proj2 (new_error_supersedes [native; failing 1; failing_enter 0]
                       no_causes 1 (failing 1) 1 eq_refl)
                (mkUnwinding (Ext 0) (Ext 0) no_causes
                             [Asend 0; Asend 1; Asend 2])
                eq_refl eq_refl)
      as (st1 & _ & _ & _ & Hfinal).
    + discriminate.
    + apply Hfinal. intros [|[|m]] q Hm Hq; [|lia..].
      injection Hq as <-. reflexivity.
Defined.

(** *** C7: protocol violations *)

(** C7, as stated, fails: the participant [1] suspends again when the exit
    pass resumes it, the [RuntimeError] made for that is injected into the
    participant [0], which swallows it, and [__aexit__] returns without any
    error: the violation is absorbed. *)
Lemma violation_absorbed :
  let r := __aexit__ [swallowing; restarting] None no_causes in
  exit_violation (Reacts (on_asend restarting)) = Some NotStop ∧
  trace r = [Asend 1; Athrow 0 (RuntimeError NotStop 1)] ∧
  raises r = None ∧
  reported None r = None.
Proof. repeat split. Qed.

(** C7, amended: each of the four protocol violations is turned, at the step
    that detects it, into a [RuntimeError] for that participant, which
    becomes the current error, the error it supersedes being recorded as its
    cause.  A violation during enter makes [__aenter__] raise.  The
    [RuntimeError] is the error the pass ends with when every participant
    resumed after the violation lets it propagate; a participant resumed
    later may still supersede it or, in the exit pass, swallow it. *)
Theorem violation_becomes_current contexts h n p :
  contexts !! n = Some p →
  (∀ why,
     enter_violation (on_enter p) = Some why →
     (∀ m q, m < n → contexts !! m = Some q → on_enter q = Yields PyNone) →
     raises (__aenter__ contexts h) ≠ None ∧
     ((∀ m q, m < n → contexts !! m = Some q →
              on_athrow q (RuntimeError why n) = Propagates) →
      raises (__aenter__ contexts h) = Some (Error (RuntimeError why n)))) ∧
  (∀ exc st why,
     exit_before contexts exc h n = Next st →
     exit_violation (resumed st p) = Some why →
     ∃ st1, exit_step st (n, p) = Next st1 ∧
       current_error st1 = Some (RuntimeError why n) ∧
       (∀ c, current_error st = Some c →
             cause st1 (RuntimeError why n) = Some c) ∧
       ((∀ m q, m < n → contexts !! m = Some q →
                on_athrow q (RuntimeError why n) = Propagates) →
        reported exc (__aexit__ contexts exc h)
        = Some (Error (RuntimeError why n)))) ∧
  (∀ st why,
     unwind_before contexts h n = Some (Next st) →
     exit_violation (on_athrow p (uw_current_error st)) = Some why →
     ∃ st1, unwind_step st (n, p) = Next st1 ∧
       uw_current_error st1 = RuntimeError why n ∧
       uw_cause st1 (RuntimeError why n) = Some (uw_current_error st) ∧
       ((∀ m q, m < n → contexts !! m = Some q →
                on_athrow q (RuntimeError why n) = Propagates) →
        raises (__aenter__ contexts h)
        = Some (Error (RuntimeError why n)))).
Proof.
  intros Hp. split; [|split].
  - intros why Hv Hbefore.
    assert (He : enter_loop (enumerate 0 contexts) [] =
      (Asend <$> seq 0 (S n), Some (n, RuntimeError why n))).
    { rewrite <- (take_drop_middle _ _ _ Hp) at 1.
      assert (Hlen : length (take n contexts) = n).
      { rewrite length_take. apply lookup_lt_Some in Hp. lia. }
      rewrite (enter_loop_violation 0 (take n contexts) p _ [] why); [|  |done].
      - by rewrite Hlen.
      - apply Forall_forall. intros q Hq.
        apply list_elem_of_lookup in Hq as [m Hm].
        apply lookup_take_Some in Hm as [Hm Hlt]. eauto. }
    unfold __aenter__. rewrite He. split.
    + by destruct (unwind_loop _ _).
    + intros Hprop.
      destruct (unwind_loop_propagates
                  (reverse (take n (enumerate 0 contexts)))
                  (mkUnwinding (RuntimeError why n) (RuntimeError why n) h
                               (Asend <$> seq 0 (S n)))
                  (take_enumerate_propagates contexts n _ Hprop))
        as (st' & -> & Hcur & _).
      by rewrite Hcur.
  - intros exc st why Hst Hv.
    destruct (exit_step_violation st n p why Hv)
      as (st1 & Hstep & _ & Hcur & _ & Hcause).
    exists st1. repeat split; [done..| |].
    + intros c Hc. rewrite (Hcause c Hc); [apply set_cause_same|].
      intros <-. pose proof (exit_before_made_after _ _ _ _ _ Hst _ Hc) as Hm.
      simpl in Hm. lia.
    + intros Hprop.
      by destruct (aexit_reported contexts exc h n p st st1 _ Hp Hst Hstep
                     Hcur Hprop).
  - intros st why Hst Hv.
    destruct (unwind_before_made_after _ _ _ _ Hst) as [_ Hm].
    assert (Hne : RuntimeError why n ≠ uw_current_error st).
    { intros Heq. rewrite <- Heq in Hm. simpl in Hm. lia. }
    pose proof (unwind_step_violation st n p why Hv Hne) as Hstep.
    eexists. split; [exact Hstep|]. simpl.
    split; [done|]. split; [apply set_cause_same|].
    intros Hprop.
    by destruct (aenter_raises contexts h n p st _ Hp Hst Hstep Hprop).
Qed.

Lemma violation_becomes_current_witness :
  raises (__aenter__ [native; restarting; mkParticipant (Stops None)
            (Stops None) (λ _, Propagates)] no_causes) ≠ None ∧
  reported (Some 0) (__aexit__ [native; restarting] (Some 0) no_causes)
  = Some (Error (RuntimeError NotStop 1)) ∧
  raises (__aenter__ [native; restarting; failing_enter 0] no_causes)
  = Some (Error (RuntimeError NotStop 1)).
Proof.
  split; [|split].
  - apply (proj1 (violation_becomes_current
      [native; restarting; mkParticipant (Stops None) (Stops None)
                                         (λ _, Propagates)]
      no_causes 2 _ eq_refl) NotYield eq_refl).
    intros [|[|[|m]]] q Hm Hq; try lia; by injection Hq as <-.
  - destruct (proj1 (proj2 (violation_becomes_current [native; restarting]
                       no_causes 1 restarting eq_refl))
                (Some 0) (exit_init (Some 0) no_causes) NotStop
                eq_refl eq_refl)
      as (st1 & _ & _ & _ & Hfinal).
    apply Hfinal. intros [|[|m]] q Hm Hq; [|lia..].
    injection Hq as <-. reflexivity.
  - destruct (proj2 (proj2 (violation_becomes_current
                       [native; restarting; failing_enter 0]
                       no_causes 1 restarting eq_refl))
                (mkUnwinding (Ext 0) (Ext 0) no_causes
                             [Asend 0; Asend 1; Asend 2])
                NotStop eq_refl eq_refl)
      as (st1 & _ & _ & _ & Hfinal).
    apply Hfinal. intros [|[|m]] q Hm Hq; [|lia..].
    injection Hq as <-. reflexivity.
Defined.

(** *** C10: a swallowed handler error *)

(** C10, as stated, fails: the participant [1] swallows the handler's error
    [Ext 0], the participant [0] is resumed normally and raises [Ext 5], and
    the lifecycle ends with [Ext 5], not with a [TypeError]. *)
Lemma swallowed_then_raised :
  let r := __aexit__ [failing 5; swallowing] (Some 0) no_causes in
  on_athrow swallowing (Ext 0) = Reacts (Stops (Some PyNone)) ∧
  trace r = [Athrow 1 (Ext 0); Asend 0] ∧
  raises r = Some (Error (Ext 5)) ∧
  raises r ≠ Some TypeError.
Proof. repeat split. discriminate. Qed.

(** C10, amended: if the exit pass begins with a handler error and a
    participant, resumed with the current error, finishes with a
    [StopAsyncIteration] whose [value] is false (None), the current error is
    cleared; if every earlier participant, which is then resumed normally
    with [asend(None)] instead of with the error, finishes in the same way,
    the final step executes [raise current_error] with [current_error] None
    and the lifecycle ends in a [TypeError]. *)
Theorem swallowed_error_ends_in_TypeError contexts id h n p st c value :
  contexts !! n = Some p →
  exit_before contexts (Some id) h n = Next st →
  current_error st = Some c →
  on_athrow p c = Reacts (Stops (Some value)) →
  truthy value = false →
  (∀ m q, m < n → contexts !! m = Some q →
          ∃ value', on_asend q = Stops (Some value') ∧ truthy value' = false) →
  ∃ st1, exit_step st (n, p) = Next st1 ∧
    current_error st1 = None ∧
    trace (__aexit__ contexts (Some id) h)
    = calls st ++ [Athrow n c] ++ (Asend <$> reverse (seq 0 n)) ∧
    raises (__aexit__ contexts (Some id) h) = Some TypeError ∧
    reported (Some id) (__aexit__ contexts (Some id) h) = Some TypeError.
Proof.
  intros Hp Hst Hc Hr Hv Hclean.
  pose proof (exit_step_swallows st n p c value Hc Hr Hv) as Hstep.
  eexists. split; [exact Hstep|]. split; [done|].
  unfold reported, __aexit__, exit_before, exit_init in *.
  rewrite (reverse_enumerate_split _ _ _ Hp), exit_loop_app, Hst. simpl.
  rewrite Hstep.
  destruct (exit_loop_clean (reverse (take n (enumerate 0 contexts)))
              (mkExiting None None (cause st) (calls st ++ [Athrow n c]))
              eq_refl)
    as (st' & -> & Hcur & _ & Hcalls).
  { apply Forall_reverse, Forall_forall. intros [j q] Hin.
    apply list_elem_of_lookup in Hin as [m Hm].
    apply lookup_take_Some in Hm as [Hm Hlt].
    rewrite enumerate_lookup in Hm.
    destruct (contexts !! m) eqn:E; simplify_eq/=. eauto. }
  rewrite Hcur. rewrite decide_False by done. simpl.
  split; [|done]. rewrite Hcalls. simpl.
  rewrite <- app_assoc. simpl. do 3 f_equal.
  rewrite fmap_reverse, enumerate_take, enumerate_fst, length_take.
  apply lookup_lt_Some in Hp. by rewrite Nat.min_l by lia.
Qed.

Lemma swallowed_error_ends_in_TypeError_witness :
  raises (__aexit__ [swallowing; swallowing; native] (Some 0) no_causes)
  = Some TypeError ∧
  trace (__aexit__ [swallowing; swallowing; native] (Some 0) no_causes)
  = [Athrow 2 (Ext 0); Athrow 1 (Ext 0); Asend 0].
Proof.
  destruct (swallowed_error_ends_in_TypeError
              [swallowing; swallowing; native] 0 no_causes 1 swallowing
              (mkExiting (Some (Ext 0)) (Some (Ext 0)) no_causes
                         [Athrow 2 (Ext 0)])
              (Ext 0) PyNone eq_refl eq_refl eq_refl eq_refl eq_refl)
    as (st1 & _ & _ & Htrace & Hraises & _).
  - intros [|m] q Hm Hq; [|lia]. injection Hq as <-.
    exists PyNone. split; reflexivity.
  - split; [exact Hraises|exact Htrace].
Defined.

End ComposerProps.

(** ** Boot validation *)

Module BootProps.
Import Boot.


(** The first loop calls every activation hook, in order, and collects the
    [provides] lists. *)
Lemma activate_spec i plugins a log :
  app_provides (activate i plugins a log).1 =
    app_provides a ∪
    ⋃ (map (λ p, list_to_set (default [] (provides p))) plugins) ∧
  (activate i plugins a log).2 = log ++ (Active <$> seq i (length plugins)).
Proof.
  revert i a log. induction plugins as [|p plugins IH]; intros i a log; simpl.
  - split; [by rewrite union_empty_r_L|by rewrite app_nil_r].
  - destruct (IH (S i)
      (mkApp (append_attr (app_contexts a) (context p))
             (append_attr (app_decorators a) (decorator p))
             (match provides p with
              | Some l => app_provides a ∪ list_to_set l
              | None => app_provides a
              end))
      (log ++ [Active i])) as [-> ->].
    split; [|by rewrite <- app_assoc].
    simpl. destruct (provides p); simpl.
    + by rewrite (assoc_L (∪)).
    + by rewrite union_empty_l_L.
Qed.




(** The boot scenario of the specification: with the configuration field
    [debug], [P1] providing [cache] and [P2] requiring [cache] and
    [config.debug], boot succeeds; without [P1] it fails with a dependency
    error that names [cache] and [P2]. *)
Lemma boot_scenario :
  (_active_plugins ["debug"%string] [P1; P2]).1.2 = None ∧
  (_active_plugins ["debug"%string] [P2]).1.2
  = Some (DependencyError "the requires cache of plugin P2 is missing").
Proof. split; by vm_compute. Qed.

(** C8, at the input where the code departs from it: a single plugin that
    requires the empty key, which nothing provides.  Its [requires] minus the
    provided-set is not empty, but the joined string is, and the check
    [if missing:] lets boot succeed. *)
Theorem empty_key_passes_validation :
  unsatisfied [] [P_empty] ∧
  _active_plugins [] [P_empty]
  = (mkApp [] [] ∅, None, [Active 0; Checked 0]).
Proof.
  split; [|by vm_compute].
  exists P_empty. split; [apply list_elem_of_here|].
  exists [EmptyString]. split; [done|].
  intros H. assert (EmptyString ∈ (∅ : gset string)) as Hin; [|set_solver].
  rewrite <- H. unfold provided_set, config_keys. simpl. set_solver.
Qed.

End BootProps.

(** ** The request handler *)

Module HandlerProps.
Import Handler.

(** C9, as stated, fails: an exception that is neither a domain error nor
    the transport's own error, and that does not derive from [Exception]
    ([KeyboardInterrupt], say), is not converted into the internal-failure
    response: it escapes to the transport layer. *)
Lemma non_exception_escapes :
  let ex := mkException NonException 0 in
  _handler (Gives (Fails ex)) = Escapes ex ∧
  exc_class_of ex ≠ HttpError.
Proof. split; [reflexivity|discriminate]. Qed.

(** C9, amended: a domain (Hrpc) error raised by handling is mapped to a
    structured error response, without being logged; a transport-native
    (Http) error passes through unmodified; any other exception deriving from
    [Exception] is logged and converted to the generic internal-failure
    response; the only other errors that escape to the transport layer are
    those that do not derive from [Exception], which pass through unmodified
    too. *)
Theorem handler_contains_errors lookup ex :
  raised_by lookup = Some ex →
  match exc_class_of ex with
  | HrpcError => _handler lookup = Responds (ErrorResponse ex) []
  | HttpError => _handler lookup = Escapes ex
  | OtherException => _handler lookup = Responds InternalErrorResponse [ex]
  | NonException => _handler lookup = Escapes ex
  end ∧
  ∀ e, _handler lookup = Escapes e →
       e = ex ∧ (exc_class_of e = HttpError ∨ exc_class_of e = NonException).
Proof.
  intros Hr.
  assert (Hh : _handler lookup =
    match exc_class_of ex with
    | HrpcError => Responds (ErrorResponse ex) []
    | HttpError => Escapes ex
    | OtherException => Responds InternalErrorResponse [ex]
    | NonException => Escapes ex
    end).
  { destruct lookup as [[r|e]|e]; simplify_eq/=; done. }
  rewrite Hh. destruct (exc_class_of ex) eqn:Hc; (split; [done|]);
    intros e [= <-]; eauto.
Qed.

Lemma handler_contains_errors_witness :
  _handler (Gives (Fails (mkException HrpcError 4)))
  = Responds (ErrorResponse (mkException HrpcError 4)) [].
Proof.
  apply (proj1 (handler_contains_errors (Gives (Fails (mkException HrpcError 4)))
                  (mkException HrpcError 4) eq_refl)).
Defined.

(** A request whose handling raises nothing is answered with what the routed
    method returned. *)
Lemma handler_returns lookup :
  raised_by lookup = None →
  ∃ r, _handler lookup = Responds (MethodResponse r) [].
Proof. destruct lookup as [[r|e]|e]; simpl; intros; simplify_eq; eauto. Qed.

End HandlerProps.

(** ** Helpers of [app.py] *)

Module AppHelpersProps.
Import AppHelpers.

Lemma string_length_append (a b : string) :
  String.length (String.append a b) = String.length a + String.length b.
Proof. induction a as [|ch a IH]; simpl; [done|]. by rewrite IH. Qed.

Lemma string_take_length n (s : string) :
  String.length (string_take n s) = n `min` String.length s.
Proof.
  revert s. induction n as [|n IH]; intros [|ch s]; simpl; try done.
  by rewrite IH.
Qed.

Lemma string_take_all n (s : string) :
  String.length s ≤ n → string_take n s = s.
Proof.
  revert s. induction n as [|n IH]; intros [|ch s]; simpl; try done; [lia|].
  intros H. rewrite IH; [done|lia].
Qed.

Lemma string_take_append n (a b : string) :
  n ≤ String.length a → string_take n (String.append a b) = string_take n a.
Proof.
  revert a. induction n as [|n IH]; intros [|ch a]; simpl; try done; [lia|].
  intros H. rewrite IH; [done|lia].
Qed.

Lemma string_take_take n m (s : string) :
  string_take n (string_take m s) = string_take (n `min` m) s.
Proof.
  revert m s. induction n as [|n IH]; intros [|m] [|ch s]; simpl; try done.
  by rewrite IH.
Qed.

Lemma string_append_cons ch (a b : string) :
  String.append (String ch a) b = String ch (String.append a b).
Proof. reflexivity. Qed.

Lemma string_take_slice n (s : string) :
  String.append (string_take n s) (slice_from n s) = s.
Proof.
  revert s. induction n as [|n IH]; intros [|ch s]; simpl; try done.
  by rewrite string_append_cons, IH.
Qed.

Lemma slice_from_append (a b : string) :
  slice_from (String.length a) (String.append a b) = b.
Proof. induction a as [|ch a IH]; simpl; [by destruct b|done]. Qed.

(** What [_shorten] returns for a width that is not negative. *)
Lemma shorten_cases (x : string) (w : Z) :
  (0 ≤ w)%Z →
  (String.length x ≤ Z.to_nat w ∧ _shorten x w = x) ∨
  (Z.to_nat w < String.length x ∧
   _shorten x w = String.append (string_take (Z.to_nat w) x) "...").
Proof.
  intros Hw. unfold _shorten, slice_to.
  destruct (Z.of_nat (String.length x) >? w)%Z eqn:Hgt.
  - right. apply Z.gtb_lt in Hgt. split; [lia|].
    by rewrite (proj2 (Z.ltb_ge w 0) Hw).
  - left. split; [|done].
    destruct (Z.gtb_spec (Z.of_nat (String.length x)) w); [done|lia].
Qed.

(** [_shorten] never returns more than [w + 3] characters: the table cells
    it fills are at most [33] wide. *)
Theorem shorten_length (x : string) (w : Z) :
  (0 ≤ w)%Z →
  (Z.of_nat (String.length (_shorten x w)) ≤ w + 3)%Z.
Proof.
  intros Hw. destruct (shorten_cases x w Hw) as [[Hlen ->]|[Hlen ->]]; [lia|].
  rewrite string_length_append, string_take_length. simpl. lia.
Qed.

Lemma shorten_length_witness :
  (Z.of_nat (String.length
     (_shorten "0123456789012345678901234567890123456789" 30)) ≤ 30 + 3)%Z.
Proof. apply shorten_length. lia. Defined.

(** [_shorten] keeps the first [w] characters of its argument, and the
    whole argument when it has no more than [w]. *)
Theorem shorten_keeps_prefix (x : string) (w : Z) :
  (0 ≤ w)%Z →
  string_take (Z.to_nat w) (_shorten x w) = string_take (Z.to_nat w) x ∧
  (Z.of_nat (String.length x) ≤ w → _shorten x w = x)%Z.
Proof.
  intros Hw. destruct (shorten_cases x w Hw) as [[Hlen ->]|[Hlen ->]].
  - done.
  - split; [|lia].
    rewrite string_take_append by (rewrite string_take_length; lia).
    rewrite string_take_take. f_equal. lia.
Qed.

Lemma shorten_keeps_prefix_witness :
  string_take 5 (_shorten "hello world" 5) = string_take 5 "hello world" ∧
  _shorten "hello" 5 = "hello"%string.
Proof.
  split.
  - apply (proj1 (shorten_keeps_prefix "hello world" 5 ltac:(lia))).
  - apply (proj2 (shorten_keeps_prefix "hello" 5 ltac:(lia))). simpl. lia.
Defined.

(** Shortening twice is shortening once. *)
Theorem shorten_idempotent (x : string) (w : Z) :
  (0 ≤ w)%Z →
  _shorten (_shorten x w) w = _shorten x w.
Proof.
  intros Hw. destruct (shorten_cases x w Hw) as [[Hlen Hx]|[Hlen Hx]].
  - by rewrite Hx, Hx.
  - rewrite Hx.
    destruct (shorten_cases (String.append (string_take (Z.to_nat w) x) "...")
                w Hw) as [[Hlen' _]|[_ ->]].
    + rewrite string_length_append, string_take_length in Hlen'.
      simpl in Hlen'. lia.
    + rewrite string_take_append by (rewrite string_take_length; lia).
      rewrite string_take_take. do 2 f_equal. lia.
Qed.

Lemma shorten_idempotent_witness :
  _shorten (_shorten "hello world" 5) 5 = _shorten "hello world" 5.
Proof. apply shorten_idempotent. lia. Defined.

(** [s.endswith(suffix)] holds exactly of the strings made of something
    followed by [suffix]. *)
Lemma endswith_spec (suffix s : string) :
  endswith suffix s = true ↔ ∃ stem, s = String.append stem suffix.
Proof.
  unfold endswith. rewrite andb_true_iff, Nat.leb_le, String.eqb_eq. split.
  - intros [Hlen Hs].
    exists (string_take (String.length s - String.length suffix) s).
    remember (String.length s - String.length suffix) as n.
    rewrite <- Hs. by rewrite string_take_slice.
  - intros [stem ->]. rewrite string_length_append. split; [lia|].
    replace (String.length stem + String.length suffix - String.length suffix)
      with (String.length stem) by lia.
    apply slice_from_append.
Qed.

Lemma elem_of_concat {A} (x : A) (ls : list (list A)) :
  x ∈ concat ls ↔ ∃ l, l ∈ ls ∧ x ∈ l.
Proof.
  induction ls as [|l ls IH]; simpl.
  - split; [by intros ?%elem_of_nil|]. by intros (l & ?%elem_of_nil & _).
  - rewrite elem_of_app, IH. split.
    + intros [H|(l' & Hl' & H)].
      * exists l. split; [apply list_elem_of_here|done].
      * exists l'. split; [by apply list_elem_of_further|done].
    + intros (l' & Hl' & H). apply elem_of_cons in Hl' as [->|Hl']; eauto.
Qed.

(** [_import_services] yields exactly the classes whose name is [Service]
    preceded by at least one character: neither a class named [Service]
    itself, nor an object that is no class, nor a name that only contains
    [Service]. *)
Theorem import_services_spec (modules : list (list member)) (obj : nat) :
  obj ∈ _import_services modules ↔
  ∃ module m stem,
    module ∈ modules ∧ m ∈ module ∧ member_obj m = obj ∧
    member_isclass m = true ∧
    stem ≠ EmptyString ∧ member_name m = String.append stem "Service".
Proof.
  unfold _import_services. rewrite list_elem_of_fmap. split.
  - intros (m & -> & Hm). apply list_elem_of_filter in Hm as [Hs Hm].
    apply elem_of_concat in Hm as (module & Hmod & Hm).
    unfold is_service in Hs.
    apply andb_true_iff in Hs as [Hs Hclass].
    apply andb_true_iff in Hs as [Hne Hend].
    apply endswith_spec in Hend as [stem Hstem].
    exists module, m, stem. repeat split; try done.
    intros ->. simpl in Hstem. rewrite Hstem in Hne.
    by rewrite String.eqb_refl in Hne.
  - intros (module & m & stem & Hmod & Hm & <- & Hclass & Hstem & Hname).
    exists m. split; [done|]. apply list_elem_of_filter. split.
    + unfold is_service. rewrite Hclass, andb_true_r.
      apply andb_true_iff. split.
      * apply negb_true_iff, String.eqb_neq. rewrite Hname. intros Heq.
        apply (f_equal String.length) in Heq.
        rewrite string_length_append in Heq.
        destruct stem; [done|]. simpl in Heq. lia.
      * apply endswith_spec. eauto.
    + apply elem_of_concat. eauto.
Qed.

End AppHelpersProps.

(** ** The command line *)

Module CliProps.
Import Cli.

(** *** Strings *)

Lemma slice_dashes (k : string) : slice_from 2 (String.append "--" k) = k.
Proof. reflexivity. Qed.

Lemma startswith_dashes (k : string) :
  startswith "--" (String.append "--" k) = true.
Proof.
  unfold startswith. change (String.append "--" k) with (String "-" (String "-" k)).
  simpl. by destruct k.
Qed.

Lemma split_eq_word (k : string) :
  has_char "=" k = false → split_eq k = (k, None).
Proof.
  induction k as [|ch k IH]; simpl; [done|].
  intros [Hch Hk]%orb_false_iff. by rewrite Hch, (IH Hk).
Qed.

Lemma split_eq_assignment (k v : string) :
  has_char "=" k = false →
  split_eq (String.append k (String "=" v)) = (k, Some v).
Proof.
  induction k as [|ch k IH]; [done|].
  intros [Hch Hk]%orb_false_iff.
  change (String.append (String ch k) (String "=" v))
    with (String ch (String.append k (String "=" v))).
  simpl. by rewrite Hch, (IH Hk).
Qed.

Lemma replace_no_hyphen (k : string) : has_char "-" (replace_hyphens k) = false.
Proof.
  induction k as [|ch k IH]; simpl; [done|]. rewrite IH, orb_false_r.
  destruct (Ascii.eqb ch "-") eqn:E; [done|exact E].
Qed.

Lemma replace_id (k : string) :
  has_char "-" k = false → replace_hyphens k = k.
Proof.
  induction k as [|ch k IH]; simpl; [done|].
  intros [Hch Hk]%orb_false_iff. by rewrite Hch, (IH Hk).
Qed.

(** *** Dictionaries *)

Lemma dict_get_set_eq k v d : dict_get k (dict_set k v d) = Some v.
Proof.
  induction d as [|[k' v'] d IH]; simpl.
  - by rewrite String.eqb_refl.
  - destruct (String.eqb k' k) eqn:E; simpl; by rewrite E.
Qed.

Lemma dict_get_set_ne k k' v d :
  k ≠ k' → dict_get k' (dict_set k v d) = dict_get k' d.
Proof.
  intros Hne. induction d as [|[k0 v0] d IH]; simpl.
  - by rewrite (proj2 (String.eqb_neq k k') Hne).
  - destruct (String.eqb k0 k) eqn:E; simpl.
    + apply String.eqb_eq in E as ->.
      by rewrite (proj2 (String.eqb_neq k k') Hne).
    + by rewrite IH.
Qed.

Lemma dict_set_keys k v d k' :
  k' ∈ (dict_set k v d).*1 ↔ k' = k ∨ k' ∈ d.*1.
Proof.
  induction d as [|[k0 v0] d IH]; simpl.
  - rewrite list_elem_of_singleton. split; [eauto|].
    by intros [?|?%elem_of_nil].
  - destruct (String.eqb k0 k) eqn:E; simpl.
    + apply String.eqb_eq in E as ->. rewrite !elem_of_cons. tauto.
    + rewrite !elem_of_cons, IH. tauto.
Qed.

Lemma dict_set_fresh k v d :
  k ∉ d.*1 → dict_set k v d = d ++ [(k, v)].
Proof.
  induction d as [|[k0 v0] d IH]; simpl; [done|].
  intros Hk. apply not_elem_of_cons in Hk as [Hne Hk].
  rewrite (proj2 (String.eqb_neq k0 k)) by done. by rewrite IH.
Qed.

Lemma dict_set_NoDup k v d : NoDup d.*1 → NoDup (dict_set k v d).*1.
Proof.
  induction d as [|[k0 v0] d IH]; simpl.
  - intros _. apply NoDup_singleton.
  - intros [Hk0 Hd]%NoDup_cons. destruct (String.eqb k0 k) eqn:E; simpl.
    + by apply NoDup_cons.
    + apply NoDup_cons. split; [|by apply IH].
      rewrite dict_set_keys. intros [->|?]; [|done].
      by rewrite String.eqb_refl in E.
Qed.

(** Rebuilding a dictionary entry by entry gives it back, when no two of
    its keys are equal. *)
Lemma rebuild_NoDup (d : dict) :
  NoDup d.*1 → foldl (λ d' '(k, v), dict_set k v d') [] d = d.
Proof.
  induction d as [|[k v] d IH] using rev_ind; [done|].
  rewrite fmap_app, foldl_app. simpl. intros Hd.
  apply NoDup_app in Hd as (Hd & Hk & _).
  rewrite IH by done. apply dict_set_fresh.
  intros Hin. apply (Hk k Hin). apply list_elem_of_here.
Qed.

(** The dictionary that the options stand for. *)
Lemma build_get (opts : list cli_option) (d : dict) (k : string) :
  dict_get k (foldl (λ d' o, dict_set (option_key o) (option_value o) d') d opts)
  = match last_value k opts with
    | Some v => Some v
    | None => dict_get k d
    end.
Proof.
  revert d. induction opts as [|o opts IH]; intros d; simpl; [done|].
  rewrite IH. destruct (last_value k opts); [done|].
  destruct (String.eqb (option_key o) k) eqn:E.
  - apply String.eqb_eq in E as <-. apply dict_get_set_eq.
  - apply String.eqb_neq in E. by apply dict_get_set_ne.
Qed.

Lemma build_keys (opts : list cli_option) (d : dict) (k : string) :
  k ∈ (foldl (λ d' o, dict_set (option_key o) (option_value o) d') d opts).*1 ↔
  k ∈ d.*1 ∨ k ∈ option_key <$> opts.
Proof.
  revert d. induction opts as [|o opts IH]; intros d; simpl.
  - split; [eauto|]. by intros [?|?%elem_of_nil].
  - rewrite IH, dict_set_keys, elem_of_cons. tauto.
Qed.

Lemma build_NoDup (opts : list cli_option) (d : dict) :
  NoDup d.*1 →
  NoDup (foldl (λ d' o, dict_set (option_key o) (option_value o) d') d opts).*1.
Proof.
  revert d. induction opts as [|o opts IH]; intros d Hd; simpl; [done|].
  by apply IH, dict_set_NoDup.
Qed.

(** *** The loop on well-formed options *)

Lemma take_prev_prev st : prev (_take_prev st) = None.
Proof. unfold _take_prev. by destruct (prev st) eqn:E. Qed.

Lemma take_prev_settled c : _take_prev (mkParsing c None) = mkParsing c None.
Proof. done. Qed.

(** An option is read as a whole and flushes the flag pending before it;
    its own flag, if it is one, is still pending afterwards. *)
Lemma parse_option st o :
  well_formed o →
  _take_prev (foldl parse_step st (render o))
  = mkParsing (dict_set (option_key o) (option_value o)
                 (config (_take_prev st))) None.
Proof.
  intros [Hk Hv].
  pose proof (take_prev_prev st) as Hprev.
  destruct o as [k|k v|k v]; simpl in *; unfold parse_step.
  - rewrite startswith_dashes, slice_dashes, (split_eq_word k Hk), Hprev.
    done.
  - destruct Hv as [Hdash Heq].
    rewrite startswith_dashes, slice_dashes, (split_eq_word k Hk), Hprev.
    rewrite Hdash, (split_eq_word v Heq). done.
  - rewrite startswith_dashes, slice_dashes, (split_eq_assignment k v Hk).
    simpl. rewrite Hprev. done.
Qed.

Lemma parse_options st opts :
  Forall well_formed opts →
  _take_prev (foldl parse_step st (concat (render <$> opts)))
  = mkParsing
      (foldl (λ d' o, dict_set (option_key o) (option_value o) d')
             (config (_take_prev st)) opts) None.
Proof.
  intros Hwf. revert st. induction Hwf as [|o opts Ho _ IH]; intros st; simpl.
  - pose proof (take_prev_prev st). by destruct (_take_prev st); simplify_eq/=.
  - rewrite foldl_app, IH. by rewrite (parse_option st o Ho).
Qed.

(** *** What the parser returns *)

Lemma dict_get_None k (d : dict) : k ∉ d.*1 → dict_get k d = None.
Proof.
  induction d as [|[k0 v0] d IH]; simpl; [done|].
  intros [Hne Hk]%not_elem_of_cons.
  rewrite (proj2 (String.eqb_neq k0 k)) by done. by apply IH.
Qed.

(** Looking up a renamed key in the rebuilt dictionary, when no other key
    of the dictionary is renamed to the same. *)
Lemma normalise_get (d acc : dict) (k : string) :
  NoDup d.*1 →
  (∀ k0, k0 ∈ d.*1 → replace_hyphens k0 = replace_hyphens k → k0 = k) →
  dict_get (replace_hyphens k)
    (foldl (λ d' '(k0, v), dict_set (replace_hyphens k0) v d') acc d)
  = match dict_get k d with
    | Some v => Some v
    | None => dict_get (replace_hyphens k) acc
    end.
Proof.
  revert acc. induction d as [|[k0 v0] d IH]; intros acc Hd Hinj; simpl; [done|].
  apply NoDup_cons in Hd as [Hk0 Hd].
  rewrite IH; [|done|intros k1 Hk1; apply Hinj; by apply list_elem_of_further].
  destruct (String.eqb k0 k) eqn:E.
  - apply String.eqb_eq in E as ->.
    by rewrite (dict_get_None k d Hk0), dict_get_set_eq.
  - apply String.eqb_neq in E. destruct (dict_get k d); [done|].
    apply dict_get_set_ne. intros Heq. apply E, Hinj; [|done].
    apply list_elem_of_here.
Qed.

Lemma normalise_keys (d acc : dict) (k : string) :
  k ∈ (foldl (λ d' '(k0, v), dict_set (replace_hyphens k0) v d') acc d).*1 ↔
  k ∈ acc.*1 ∨ k ∈ replace_hyphens <$> d.*1.
Proof.
  revert acc. induction d as [|[k0 v0] d IH]; intros acc; simpl.
  - split; [eauto|]. by intros [?|?%elem_of_nil].
  - rewrite IH, dict_set_keys, elem_of_cons. tauto.
Qed.

(** No key of the parsed configuration contains a hyphen, whatever the
    tokens are. *)
Theorem parsed_keys_have_no_hyphen (tokens : list string) (k : string) :
  k ∈ (_parse_config_options tokens).*1 → has_char "-" k = false.
Proof.
  unfold _parse_config_options, normalise. rewrite normalise_keys.
  intros [?%elem_of_nil|Hk]; [done|].
  apply list_elem_of_fmap in Hk as (k0 & -> & _). apply replace_no_hyphen.
Qed.

Lemma parsed_keys_have_no_hyphen_witness :
  has_char "-" "log_level" = false.
Proof.
  apply (parsed_keys_have_no_hyphen ["--log-level"; "debug"]%string).
  vm_compute. apply list_elem_of_here.
Defined.

(** A command line made of options in the documented forms, [--key],
    [--key value] and [--key=value], is read back as written: the parsed
    configuration has exactly the keys of the options, with hyphens replaced,
    and gives each key the value of its last option, provided no other key
    of the command line is renamed to the same key. *)
Theorem parse_round_trip (opts : list cli_option) (k : string) :
  Forall well_formed opts →
  (∀ o, o ∈ opts →
        replace_hyphens (option_key o) = replace_hyphens k →
        option_key o = k) →
  dict_get (replace_hyphens k)
           (_parse_config_options (concat (render <$> opts)))
  = last_value k opts ∧
  ∀ k', k' ∈ (_parse_config_options (concat (render <$> opts))).*1 ↔
        ∃ o, o ∈ opts ∧ k' = replace_hyphens (option_key o).
Proof.
  intros Hwf Hinj. unfold _parse_config_options.
  rewrite (parse_options _ opts Hwf). simpl. unfold normalise.
  set (d := foldl (λ d' o, dict_set (option_key o) (option_value o) d')
                  [] opts).
  assert (Hkeys : ∀ k0, k0 ∈ d.*1 ↔ k0 ∈ option_key <$> opts).
  { intros k0. unfold d. rewrite build_keys. split; [|eauto].
    by intros [?%elem_of_nil|?]. }
  split.
  - rewrite normalise_get.
    + unfold d. rewrite build_get. simpl. by destruct (last_value k opts).
    + apply build_NoDup. constructor.
    + intros k0 Hk0. apply Hkeys, list_elem_of_fmap in Hk0 as (o & -> & Ho).
      by apply Hinj.
  - intros k'. rewrite normalise_keys. split.
    + intros [?%elem_of_nil|Hk']; [done|].
      apply list_elem_of_fmap in Hk' as (k0 & -> & Hk0).
      apply Hkeys, list_elem_of_fmap in Hk0 as (o & -> & Ho). eauto.
    + intros (o & Ho & ->). right. apply list_elem_of_fmap.
      exists (option_key o). split; [done|].
      apply Hkeys, list_elem_of_fmap. eauto.
Qed.

Lemma parse_round_trip_witness :
  dict_get "log_level"
    (_parse_config_options ["--debug"; "--log-level"; "info"; "--port=8899";
                            "--log-level=warn"]%string)
  = Some (VStr "warn").
Proof.
  apply (proj1 (parse_round_trip
    [Flag "debug"; Pair "log-level" "info"; Assign "port" "8899";
     Assign "log-level" "warn"] "log-level"
    ltac:(repeat constructor)
    ltac:(intros o Ho Heq;
          repeat (apply elem_of_cons in Ho as [->|Ho]; [try done|]);
          [discriminate Heq..|by apply elem_of_nil in Ho]))).
Defined.

(** A flag is lost when the next token assigns its key without dashes:
    [--key key=value] sets the key to [True], not to the value. *)
Theorem flag_overrides_bare_assignment (k v : string) :
  has_char "=" k = false →
  startswith "--" (String.append k (String "=" v)) = false →
  _parse_config_options
    [String.append "--" k; String.append k (String "=" v)]
  = [(replace_hyphens k, VTrue)].
Proof.
  intros Hk Hdash. unfold _parse_config_options. simpl.
  unfold parse_step at 2. simpl prev.
  rewrite startswith_dashes, slice_dashes, (split_eq_word k Hk). simpl.
  unfold parse_step. rewrite Hdash, (split_eq_assignment k v Hk). simpl.
  unfold _take_prev. simpl. by rewrite !String.eqb_refl.
Qed.

Lemma flag_overrides_bare_assignment_witness :
  _parse_config_options ["--debug"; "debug=1"]%string = [("debug"%string, VTrue)].
Proof.
  apply (flag_overrides_bare_assignment "debug" "1"); reflexivity.
Defined.

End CliProps.

(** ** More on the dependency container *)

Module ContainerMore.
Import Container ContainerProps.

Lemma provide_each_config c calls : _config (provide_each c calls) = _config c.
Proof.
  revert c. induction calls as [|[[key value] lazy] calls IH]; intros c; [done|].
  simpl. unfold provide_each in IH. by rewrite IH, provide_config.
Qed.

(** [require] raises the dependency error exactly when the key is missing:
    from the configuration, for a key of the [config.] namespace; from both
    registries, for any other key.  The error names the key, and the Context
    is left as it was. *)
Theorem require_dependency_error c key k :
  (require c key).1 = Raise (DependencyError k) ↔
  k = key ∧
  if startswith "config." key
  then _config c !! slice_from 7 key = None
  else _container c !! key = None ∧ _providers c !! key = None.
Proof.
  unfold require. destruct (startswith "config." key).
  - destruct (_config c !! slice_from 7 key); simpl; split;
      try (by intros [= ->]); by intros [-> ?].
  - destruct (_container c !! key) as [v|]; simpl.
    { split; [done|]. by intros [_ [? _]]. }
    destruct (_providers c !! key) as [[| | | | |fid [v|exc]]|]; simpl;
      split; try done; try (by intros [_ [_ ?]]);
      try (by intros [= ->]); by intros [-> _].
Qed.

Theorem require_failure_keeps_context c key k :
  (require c key).1 = Raise (DependencyError k) → (require c key).2 = c.
Proof.
  unfold require. destruct (startswith "config." key).
  - by destruct (_config c !! slice_from 7 key).
  - destruct (_container c !! key) as [v|]; [done|].
    by destruct (_providers c !! key) as [[| | | | |fid [v|exc]]|].
Qed.

Lemma require_failure_keeps_context_witness :
  (require (new ∅) "db").2 = new ∅.
Proof.
  apply (require_failure_keeps_context (new ∅) "db" "db"). reflexivity.
Defined.

(** [require] never touches the configuration or the lazy registry, never
    changes or removes a stored value, and stores nothing under any key but
    the one required. *)
Theorem require_preserves c key :
  _config (require c key).2 = _config c ∧
  _providers (require c key).2 = _providers c ∧
  (∀ k v, _container c !! k = Some v →
          _container (require c key).2 !! k = Some v) ∧
  (∀ k, k ≠ key →
        _container (require c key).2 !! k = _container c !! k).
Proof.
  unfold require. destruct (startswith "config." key).
  { by destruct (_config c !! slice_from 7 key). }
  destruct (_container c !! key) as [w|] eqn:Hc; [done|].
  destruct (_providers c !! key) as [[| | | | |fid [v|exc]]|]; simpl;
    try done.
  repeat split.
  - intros k v' Hk. rewrite lookup_insert_ne; [done|]. congruence.
  - intros k Hk. by rewrite lookup_insert_ne.
Qed.

(** A value that [require] returned is returned again by the next call,
    which changes nothing and calls nothing. *)
Theorem require_stable c key v :
  (require c key).1 = Return v →
  require (require c key).2 key = (Return v, (require c key).2).
Proof.
  unfold require at 1 3 4. destruct (startswith "config." key) eqn:Hk.
  - destruct (_config c !! slice_from 7 key) as [w|] eqn:Hw; simpl; [|done].
    intros [= ->]. unfold require. by rewrite Hk, Hw.
  - destruct (_container c !! key) as [w|] eqn:Hc; simpl.
    { intros [= ->]. by apply require_stored. }
    destruct (_providers c !! key) as [[| | | | |fid [w|exc]]|]; simpl;
      try done.
    intros [= ->]. apply require_stored; [done|]. simpl.
    by rewrite lookup_insert_eq.
Qed.

Lemma require_stable_witness :
  let c := provide (new ∅) "db" (PyFunc 7 (Returns (PyInt 5))) true in
  require (require c "db").2 "db" = (Return (PyInt 5), (require c "db").2).
Proof.
  apply (require_stable _ "db" (PyInt 5)). reflexivity.
Defined.

(** Providing under one key does not change what [require] returns for
    another key. *)
Theorem provide_other_key c key key' value lazy :
  key ≠ key' →
  (require (provide c key' value lazy) key).1 = (require c key).1.
Proof.
  intros Hne. unfold require. rewrite provide_config.
  destruct (startswith "config." key);
    [by destruct (_config c !! slice_from 7 key)|].
  destruct lazy; simpl.
  - rewrite lookup_insert_ne by done.
    destruct (_container c !! key); [done|].
    by destruct (_providers c !! key) as [[| | | | |fid [v|exc]]|].
  - rewrite lookup_insert_ne by done.
    destruct (_container c !! key); [done|].
    by destruct (_providers c !! key) as [[| | | | |fid [v|exc]]|].
Qed.

Lemma provide_other_key_witness :
  (require (provide (provide (new ∅) "db" (PyInt 1) false)
                    "cache" (PyInt 2) false) "db").1
  = (require (provide (new ∅) "db" (PyInt 1) false) "db").1.
Proof.
  apply (provide_other_key (provide (new ∅) "db" (PyInt 1) false) "db" "cache").
  discriminate.
Defined.

(** The configuration is out of reach of [provide]: whatever is provided,
    eagerly or lazily and under whatever keys, [require] of a key of the
    [config.] namespace returns what it returned before. *)
Theorem config_immune_to_provide c calls key :
  startswith "config." key = true →
  (require (provide_each c calls) key).1 = (require c key).1.
Proof.
  intros Hk. rewrite !require_config by done. simpl.
  by rewrite provide_each_config.
Qed.

Lemma config_immune_to_provide_witness :
  (require (provide_each (new {[ "port"%string := PyInt 8080 ]})
              [("config.port"%string, PyInt 1, false);
               ("port"%string, PyInt 2, false);
               ("config.port"%string, PyFunc 0 (Returns (PyInt 3)), true)])
           "config.port").1
  = (require (new {[ "port"%string := PyInt 8080 ]}) "config.port").1.
Proof. apply config_immune_to_provide. reflexivity. Defined.

(** A value held in the container, eager or memoized, outlives every later
    lazy registration of its key: [require] keeps returning it. *)
Theorem stored_value_outlives_lazy c key v calls :
  startswith "config." key = false →
  _container c !! key = Some v →
  Forall (λ call, call.2 = true ∨ call.1.1 ≠ key) calls →
  (require (provide_each c calls) key).1 = Return v.
Proof.
  intros Hk Hv Hcalls.
  assert (Hkept : _container (provide_each c calls) !! key = Some v).
  { revert c Hv. induction Hcalls as [|[[k value] lazy] calls Hcall _ IH];
      intros c Hv; [done|].
    simpl. apply IH. simpl in Hcall. destruct lazy; simpl; [done|].
    destruct Hcall as [?|Hne]; [done|]. by rewrite lookup_insert_ne. }
  by rewrite (require_stored _ key v Hk Hkept).
Qed.

Lemma stored_value_outlives_lazy_witness :
  let c := (require (provide (new ∅) "db" (PyFunc 1 (Returns (PyInt 5))) true)
                    "db").2 in
  (require (provide_each c [("db"%string, PyFunc 2 (Returns (PyInt 6)), true)])
           "db").1 = Return (PyInt 5).
Proof.
  apply (stored_value_outlives_lazy _ "db" (PyInt 5)).
  - reflexivity.
  - reflexivity.
  - repeat constructor.
Defined.

End ContainerMore.

(** ** More on the scope composer *)

Module ComposerMore.
Import Composer ComposerProps.

#[local] Arguments exit_step : simpl never.
#[local] Arguments unwind_step : simpl never.

(** *** When [__aenter__] returns *)

Lemma enter_loop_succeeds cs calls0 :
  (enter_loop cs calls0).2 = None ↔
  Forall (λ jc, on_enter jc.2 = Yields PyNone) cs.
Proof.
  revert calls0. induction cs as [|[i p] cs IH]; intros calls0; simpl.
  - split; [constructor|done].
  - rewrite Forall_cons. simpl.
    destruct (on_enter p) as [[| | | | |]|value|id]; simpl;
      try (split; [done|by intros [? _]]).
    rewrite IH. tauto.
Qed.

Lemma enumerate_Forall (P : participant → Prop) i cs :
  Forall (λ jc : nat * participant, P jc.2) (enumerate i cs) ↔ Forall P cs.
Proof.
  revert i. induction cs as [|c cs IH]; intros i; simpl.
  - split; constructor.
  - by rewrite !Forall_cons, IH.
Qed.

(** [__aenter__] returns exactly when every participant suspends with None
    at its first resume; it has then called [asend] on each of them, in
    order, and nothing else, and attached no cause. *)
Theorem aenter_returns_iff contexts h :
  (raises (__aenter__ contexts h) = None ↔
   Forall (λ p, on_enter p = Yields PyNone) contexts) ∧
  (raises (__aenter__ contexts h) = None →
   trace (__aenter__ contexts h) = Asend <$> seq 0 (length contexts) ∧
   final_causes (__aenter__ contexts h) = h).
Proof.
  rewrite <- (enumerate_Forall _ 0), <- (enter_loop_succeeds _ []).
  unfold __aenter__.
  destruct (enter_loop (enumerate 0 contexts) []) as [calls1 [[i e]|]] eqn:He.
  - simpl. split.
    + split; [|done]. by destruct (unwind_loop _ _).
    + by destruct (unwind_loop _ _).
  - simpl. split; [done|]. intros _.
    by rewrite (enter_loop_enumerate_all _ _ He).
Qed.

(** *** An enter failure cannot be suppressed *)

(** Participants that let the injected error propagate, or swallow it
    finishing with a false [value], leave the variables of the unwinding as
    they are. *)
Lemma unwind_loop_quiet cs st :
  uw_error st = uw_current_error st →
  Forall (λ jc, on_athrow jc.2 (uw_current_error st) = Propagates ∨
                ∃ value, on_athrow jc.2 (uw_current_error st)
                         = Reacts (Stops (Some value)) ∧
                         truthy value = false) cs →
  unwind_loop cs st =
  Next (mkUnwinding (uw_current_error st) (uw_current_error st) (uw_cause st)
          (uw_calls st ++ ((λ jc, Athrow jc.1 (uw_current_error st)) <$> cs))).
Proof.
  revert st. induction cs as [|[j p] cs IH]; intros st Heq Hcs; simpl.
  - rewrite app_nil_r. destruct st; simpl in *. by rewrite Heq.
  - apply Forall_cons in Hcs as [Hp Hcs]. simpl in Hp.
    assert (Hstep : unwind_step st (j, p) =
      Next (mkUnwinding (uw_current_error st) (uw_current_error st)
              (uw_cause st)
              (uw_calls st ++ [Athrow j (uw_current_error st)]))).
    { unfold unwind_step.
      destruct Hp as [->|(value & -> & ->)]; rewrite ?Heq;
        by rewrite decide_True. }
    rewrite Hstep, IH; [|done|done]. simpl. by rewrite <- app_assoc.
Qed.

(** When the first loop of [__aenter__] breaks with an error and every
    participant entered before either lets the injected error propagate or
    swallows it, [__aenter__] still raises that very error, with no cause
    attached, after one [athrow] on each of them in reverse order: unlike in
    [__aexit__], swallowing does not suppress the error. *)
Theorem enter_failure_not_suppressed contexts h calls1 i e :
  enter_loop (enumerate 0 contexts) [] = (calls1, Some (i, e)) →
  (∀ j p, j < i → contexts !! j = Some p →
          on_athrow p e = Propagates ∨
          ∃ value, on_athrow p e = Reacts (Stops (Some value)) ∧
                   truthy value = false) →
  raises (__aenter__ contexts h) = Some (Error e) ∧
  final_causes (__aenter__ contexts h) = h ∧
  trace (__aenter__ contexts h)
  = (Asend <$> seq 0 (S i)) ++ ((λ j, Athrow j e) <$> reverse (seq 0 i)).
Proof.
  intros He Hquiet. unfold __aenter__. rewrite He.
  destruct (enter_loop_enumerate _ _ _ _ He) as [Hi ->].
  rewrite (unwind_loop_quiet _ (mkUnwinding e e h (Asend <$> seq 0 (S i))));
    [|done|].
  - cbn [raises final_causes trace uw_current_error uw_cause uw_calls].
    repeat split. f_equal.
    rewrite !fmap_reverse. f_equal. rewrite enumerate_take.
    assert (seq 0 i = (enumerate 0 (take i contexts)).*1) as ->.
    { rewrite enumerate_fst, length_take. by rewrite Nat.min_l by lia. }
    by rewrite <- list_fmap_compose.
  - apply Forall_reverse, Forall_forall. intros [j p] Hin. simpl.
    apply list_elem_of_lookup in Hin as [m Hm].
    apply lookup_take_Some in Hm as [Hm Hlt].
    rewrite enumerate_lookup in Hm.
    destruct (contexts !! m) eqn:E; simplify_eq/=. eauto.
Qed.

Lemma enter_failure_not_suppressed_witness :
  raises (__aenter__ [native; swallowing; failing_enter 4] no_causes)
  = Some (Error (Ext 4)) ∧
  trace (__aenter__ [native; swallowing; failing_enter 4] no_causes)
  = [Asend 0; Asend 1; Asend 2; Athrow 1 (Ext 4); Athrow 0 (Ext 4)].
Proof.
  destruct (enter_failure_not_suppressed
              [native; swallowing; failing_enter 4] no_causes
              [Asend 0; Asend 1; Asend 2] 2 (Ext 4) eq_refl)
    as (Hr & _ & Ht).
  - intros [|[|j]] p Hj Hp; [| |lia]; injection Hp as <-.
    + left. reflexivity.
    + right. exists PyNone. split; reflexivity.
  - split; [exact Hr|exact Ht].
Defined.

(** *** The exit pass on the ordinary paths *)

Lemma exit_loop_transparent cs st e :
  error st = Some e → current_error st = Some e →
  Forall (λ jc, on_athrow jc.2 e = Propagates) cs →
  exit_loop cs st =
  Next (mkExiting (Some e) (Some e) (cause st)
          (calls st ++ ((λ jc, Athrow jc.1 e) <$> cs))).
Proof.
  revert st. induction cs as [|[j p] cs IH]; intros st Herr Hcur Hcs; simpl.
  - rewrite app_nil_r. destruct st; simpl in *. by rewrite Herr, Hcur.
  - apply Forall_cons in Hcs as [Hp Hcs]. simpl in Hp.
    rewrite (exit_step_propagates st j p e Hcur Hp), IH; [|done..].
    simpl. by rewrite <- app_assoc.
Qed.

(** When the body raised and every participant lets the injected error
    propagate, [__aexit__] injects that same error into each participant, in
    reverse order, attaches no cause and returns None, so that the
    [async with] statement re-raises the error of the body. *)
Theorem aexit_error_propagates contexts id h :
  Forall (λ p, on_athrow p (Ext id) = Propagates) contexts →
  raises (__aexit__ contexts (Some id) h) = None ∧
  reported (Some id) (__aexit__ contexts (Some id) h) = Some (Error (Ext id)) ∧
  final_causes (__aexit__ contexts (Some id) h) = h ∧
  trace (__aexit__ contexts (Some id) h)
  = (λ j, Athrow j (Ext id)) <$> reverse (seq 0 (length contexts)).
Proof.
  intros Hcs. unfold reported, __aexit__.
  rewrite (exit_loop_transparent _ _ (Ext id)); [|done|done|].
  - cbn [current_error cause calls]. rewrite decide_True by done.
    cbn [raises final_causes trace]. repeat split.
    rewrite app_nil_l, !fmap_reverse. f_equal.
    rewrite <- (enumerate_fst 0 contexts), <- list_fmap_compose. done.
  - apply Forall_reverse.
    by apply (enumerate_Forall (λ p, on_athrow p (Ext id) = Propagates)).
Qed.

Lemma aexit_error_propagates_witness :
  reported (Some 3) (__aexit__ [native; native] (Some 3) no_causes)
  = Some (Error (Ext 3)) ∧
  trace (__aexit__ [native; native] (Some 3) no_causes)
  = [Athrow 1 (Ext 3); Athrow 0 (Ext 3)].
Proof.
  destruct (aexit_error_propagates [native; native] 3 no_causes)
    as (_ & Hr & _ & Ht).
  - repeat constructor.
  - split; [exact Hr|exact Ht].
Defined.

Lemma aexit_clean_witness :
  raises (__aexit__ [swallowing; swallowing] None no_causes) = None ∧
  trace (__aexit__ [swallowing; swallowing] None no_causes)
  = [Asend 1; Asend 0].
Proof.
  apply (aexit_clean [swallowing; swallowing] no_causes).
  repeat constructor; exists PyNone; split; reflexivity.
Defined.

(** After a body that succeeded, [__aexit__] never ends in the [TypeError]
    of [raise None]: that only happens when the body raised. *)
Theorem aexit_success_no_TypeError contexts h :
  raises (__aexit__ contexts None h) ≠ Some TypeError.
Proof.
  unfold __aexit__.
  destruct (exit_loop _ _) as [st'|j st']; [|done].
  destruct (decide (current_error st' = Ext <$> None)) as [Heq|Hne]; [done|].
  by destruct (current_error st').
Qed.

(** *** Where the [AttributeError] comes from *)

Lemma exit_step_escapes st j p k st' :
  exit_step st (j, p) = Escaped k st' →
  k = j ∧ (on_asend p = Stops None ∨ ∃ e, on_athrow p e = Reacts (Stops None)).
Proof.
  intros H. split; [by eapply exit_step_escaped|]. revert H.
  unfold exit_step.
  destruct (current_error st) as [c|].
  - destruct (on_athrow p c) as [|[ret|[value|]|id]] eqn:E; simpl;
      try done; [by destruct (truthy value)|eauto].
  - destruct (on_asend p) as [ret|[value|]|id] eqn:E; simpl;
      try done; [by destruct (truthy value)|eauto].
Qed.

Lemma unwind_step_escapes st j p k st' :
  unwind_step st (j, p) = Escaped k st' →
  k = j ∧ ∃ e, on_athrow p e = Reacts (Stops None).
Proof.
  intros H. split; [by eapply unwind_step_escaped|]. revert H.
  unfold unwind_step.
  destruct (on_athrow p (uw_current_error st)) as [|[ret|[value|]|id]] eqn:E;
    simpl; try done; [by destruct (truthy value)|eauto].
Qed.

Lemma exit_loop_escapes cs st k st' :
  exit_loop cs st = Escaped k st' →
  ∃ p, (k, p) ∈ cs ∧
    (on_asend p = Stops None ∨ ∃ e, on_athrow p e = Reacts (Stops None)).
Proof.
  revert st. induction cs as [|[j p] cs IH]; intros st; simpl; [done|].
  destruct (exit_step st (j, p)) as [st1|k1 st1] eqn:Hstep.
  - intros H. destruct (IH _ H) as (q & Hq & ?). exists q.
    split; [by apply list_elem_of_further|done].
  - intros [= -> ->]. apply exit_step_escapes in Hstep as [-> ?].
    exists p. split; [apply list_elem_of_here|done].
Qed.

Lemma unwind_loop_escapes cs st k st' :
  unwind_loop cs st = Escaped k st' →
  ∃ p, (k, p) ∈ cs ∧ ∃ e, on_athrow p e = Reacts (Stops None).
Proof.
  revert st. induction cs as [|[j p] cs IH]; intros st; simpl; [done|].
  destruct (unwind_step st (j, p)) as [st1|k1 st1] eqn:Hstep.
  - intros H. destruct (IH _ H) as (q & Hq & ?). exists q.
    split; [by apply list_elem_of_further|done].
  - intros [= -> ->]. apply unwind_step_escapes in Hstep as [-> ?].
    exists p. split; [apply list_elem_of_here|done].
Qed.

Lemma elem_of_enumerate cs k p :
  (k, p) ∈ enumerate 0 cs → cs !! k = Some p.
Proof.
  intros Hin. apply list_elem_of_lookup in Hin as [m Hm].
  rewrite enumerate_lookup in Hm.
  destruct (cs !! m) eqn:E; by simplify_eq/=.
Qed.

(** Either pass raises the [AttributeError] for the participant [j] only
    when that participant finishes with a [StopAsyncIteration] that has no
    [value] attribute; the first loop of [__aenter__], which does not read
    the attribute, is never the cause. *)
Theorem attribute_error_from_bare_stop contexts exc h j :
  (raises (__aexit__ contexts exc h) = Some (AttributeError j) →
   ∃ p, contexts !! j = Some p ∧
     (on_asend p = Stops None ∨ ∃ e, on_athrow p e = Reacts (Stops None))) ∧
  (raises (__aenter__ contexts h) = Some (AttributeError j) →
   ∃ p, contexts !! j = Some p ∧ ∃ e, on_athrow p e = Reacts (Stops None)).
Proof.
  split.
  - unfold __aexit__.
    destruct (exit_loop _ _) as [st'|k st'] eqn:Hloop.
    + destruct (decide _); [done|]. by destruct (current_error st').
    + simpl. intros [= ->].
      apply exit_loop_escapes in Hloop as (p & Hp & Hstop).
      exists p. split; [|done].
      rewrite elem_of_reverse in Hp. by apply elem_of_enumerate.
  - unfold __aenter__.
    destruct (enter_loop _ _) as [calls1 [[i e]|]]; [|done].
    destruct (unwind_loop _ _) as [st'|k st'] eqn:Hloop; [done|].
    simpl. intros [= ->].
    apply unwind_loop_escapes in Hloop as (p & Hp & Hstop).
    exists p. split; [|done].
    rewrite elem_of_reverse in Hp.
    apply elem_of_take in Hp as (m & Hm & _).
    apply elem_of_enumerate. by eapply list_elem_of_lookup_2.
Qed.

Lemma attribute_error_from_bare_stop_witness :
  ∃ p, [native; native] !! 1 = Some p ∧
    (on_asend p = Stops None ∨ ∃ e, on_athrow p e = Reacts (Stops None)).
Proof.
  apply (proj1 (attribute_error_from_bare_stop [native; native] None
                  no_causes 1)).
  reflexivity.
Defined.

Lemma aexit_visits_all_reversed_witness :
  event_ctx <$> trace (__aexit__ [swallowing; failing 1; restarting] (Some 0)
                         no_causes)
  = reverse (seq 0 3).
Proof.
  apply (aexit_visits_all_reversed [swallowing; failing 1; restarting]
           (Some 0) no_causes).
  repeat constructor; try discriminate; intros e; discriminate.
Defined.


End ComposerMore.

(** ** More on boot *)

Module BootMore.
Import Boot BootProps.

Lemma activate_collects i plugins a log :
  app_contexts (activate i plugins a log).1
  = app_contexts a ++ omap context plugins ∧
  app_decorators (activate i plugins a log).1
  = app_decorators a ++ omap decorator plugins.
Proof.
  revert i a log. induction plugins as [|p plugins IH]; intros i a log; simpl.
  - by rewrite !app_nil_r.
  - destruct (IH (S i)
      (mkApp (append_attr (app_contexts a) (context p))
             (append_attr (app_decorators a) (decorator p))
             (match provides p with
              | Some l => app_provides a ∪ list_to_set l
              | None => app_provides a
              end))
      (log ++ [Active i])) as [-> ->].
    simpl. split.
    + destruct (context p); simpl; [by rewrite <- app_assoc|done].
    + destruct (decorator p); simpl; [by rewrite <- app_assoc|done].
Qed.

(** The scope factories and the decorators that the [App] keeps are those
    of the plugins that have one, in the order of the plugins, whether or not
    the validation that follows succeeds. *)
Theorem contexts_in_plugin_order fields plugins :
  app_contexts (_active_plugins fields plugins).1.1 = omap context plugins ∧
  app_decorators (_active_plugins fields plugins).1.1 = omap decorator plugins.
Proof.
  unfold _active_plugins.
  pose proof (activate_collects 0 plugins (mkApp [] [] (config_keys fields)) [])
    as Hc.
  destruct (activate 0 plugins _ []) as [a log].
  destruct (validate 0 plugins (app_provides a) log) as [r log'].
  exact Hc.
Qed.

(** The second loop raises exactly when the joined missing keys of some
    plugin are not the empty string. *)
Lemma validate_exact i plugins provided log :
  is_Some (validate i plugins provided log).1 ↔
  ∃ p reqs, p ∈ plugins ∧ requires p = Some reqs ∧
            missing_of provided reqs ≠ EmptyString.
Proof.
  revert i log. induction plugins as [|p plugins IH]; intros i log; simpl.
  - split; [by intros [? ?]|]. by intros (p & reqs & ?%elem_of_nil & _).
  - destruct (requires p) as [reqs|] eqn:Hreq.
    + destruct (String.eqb (missing_of provided reqs) EmptyString) eqn:Heqb.
      * apply String.eqb_eq in Heqb. rewrite IH. split.
        -- intros (q & reqs' & Hq & ?). exists q, reqs'.
           split; [by apply list_elem_of_further|done].
        -- intros (q & reqs' & Hq & Hreq' & Hmiss).
           apply elem_of_cons in Hq as [->|Hq]; [|by eauto].
           rewrite Hreq in Hreq'. by injection Hreq' as <-.
      * apply String.eqb_neq in Heqb. simpl. split; [|by eauto].
        intros _. exists p, reqs. split; [apply list_elem_of_here|done].
    + rewrite IH. split.
      * intros (q & reqs' & Hq & ?). exists q, reqs'.
        split; [by apply list_elem_of_further|done].
      * intros (q & reqs' & Hq & Hreq' & Hmiss).
        apply elem_of_cons in Hq as [->|Hq]; [congruence|by eauto].
Qed.

Lemma active_plugins_exact fields plugins :
  is_Some (_active_plugins fields plugins).1.2 ↔
  ∃ p reqs, p ∈ plugins ∧ requires p = Some reqs ∧
            missing_of (provided_set fields plugins) reqs ≠ EmptyString.
Proof.
  unfold _active_plugins.
  pose proof (activate_spec 0 plugins (mkApp [] [] (config_keys fields)) [])
    as [Hprov _].
  destruct (activate 0 plugins _ []) as [a log]. simpl in Hprov.
  fold (provided_set fields plugins) in Hprov.
  pose proof (validate_exact 0 plugins (app_provides a) log) as Hv.
  destruct (validate 0 plugins (app_provides a) log) as [r log'].
  simpl in *. by rewrite <- Hprov.
Qed.

(** The dependency error is never raised without cause: when boot fails,
    some plugin requires a key that neither the configuration nor any plugin
    provides.  So a set of plugins whose requirements are all provided always
    boots. *)
Theorem boot_failure_has_cause fields plugins :
  is_Some (_active_plugins fields plugins).1.2 →
  unsatisfied fields plugins.
Proof.
  intros (p & reqs & Hp & Hreq & Hmiss)%active_plugins_exact.
  exists p. split; [done|]. exists reqs. split; [done|].
  intros Hempty. apply Hmiss. unfold missing_of.
  by rewrite Hempty, elements_empty.
Qed.

Lemma boot_failure_has_cause_witness :
  unsatisfied ["debug"%string] [P2].
Proof.
  apply boot_failure_has_cause. vm_compute. eauto.
Defined.

Lemma provided_set_permutation fields plugins plugins' :
  plugins ≡ₚ plugins' →
  provided_set fields plugins = provided_set fields plugins'.
Proof.
  intros Hperm. apply set_eq. intros x. unfold provided_set.
  rewrite !elem_of_union, !elem_of_union_list.
  assert (Hiff : ∀ X : gset string,
    X ∈ map (λ p, list_to_set (default [] (provides p))) plugins ↔
    X ∈ map (λ p, list_to_set (default [] (provides p))) plugins').
  { intros X. rewrite !list_elem_of_In, !in_map_iff.
    split; intros (p & ? & Hp); exists p; (split; [done|]);
      apply list_elem_of_In; apply list_elem_of_In in Hp.
    - by rewrite <- Hperm.
    - by rewrite Hperm. }
  split; (intros [?|(X & HX & ?)]; [by left|right]; exists X;
          split; [by apply Hiff|done]).
Qed.

(** Whether boot fails does not depend on the order of the plugins: a
    plugin may require what a plugin listed after it provides. *)
Theorem validation_order_independent fields plugins plugins' :
  plugins ≡ₚ plugins' →
  is_Some (_active_plugins fields plugins).1.2 ↔
  is_Some (_active_plugins fields plugins').1.2.
Proof.
  intros Hperm. rewrite !active_plugins_exact.
  rewrite (provided_set_permutation fields plugins plugins' Hperm).
  split; intros (p & reqs & Hp & ?); exists p, reqs; (split; [|done]).
  - by rewrite <- Hperm.
  - by rewrite Hperm.
Qed.

Lemma validation_order_independent_witness :
  is_Some (_active_plugins ["debug"%string] [P1; P2]).1.2 ↔
  is_Some (_active_plugins ["debug"%string] [P2; P1]).1.2.
Proof.
  apply validation_order_independent. apply Permutation_swap.
Defined.


End BootMore.

(** ** Loading the configuration *)

Module ConfigLoadProps.
Import ConfigLoad.

Section load.
Context {V C : Type}.
Implicit Types d other : list (string * V).

Lemma update_get_set_eq k (v : V) d : dict_get k (dict_set k v d) = Some v.
Proof.
  induction d as [|[k' v'] d IH]; simpl.
  - by rewrite String.eqb_refl.
  - destruct (String.eqb k' k) eqn:E; simpl; by rewrite E.
Qed.

Lemma update_get_set_ne k k' (v : V) d :
  k ≠ k' → dict_get k' (dict_set k v d) = dict_get k' d.
Proof.
  intros Hne. induction d as [|[k0 v0] d IH]; simpl.
  - by rewrite (proj2 (String.eqb_neq k k') Hne).
  - destruct (String.eqb k0 k) eqn:E; simpl.
    + apply String.eqb_eq in E as ->.
      by rewrite (proj2 (String.eqb_neq k k') Hne).
    + by rewrite IH.
Qed.

Lemma update_get_None k d : k ∉ d.*1 → dict_get k d = None.
Proof.
  induction d as [|[k0 v0] d IH]; simpl; [done|].
  intros [Hne Hk]%not_elem_of_cons.
  rewrite (proj2 (String.eqb_neq k0 k)) by done. by apply IH.
Qed.

(** [d.update(other)] gives every key of [other] the value it has there and
    leaves the other keys of [d] alone. *)
Lemma dict_update_get d other k :
  NoDup other.*1 →
  dict_get k (dict_update d other)
  = match dict_get k other with
    | Some v => Some v
    | None => dict_get k d
    end.
Proof.
  unfold dict_update. revert d.
  induction other as [|[k0 v0] other IH]; intros d Hnd; simpl; [done|].
  apply NoDup_cons in Hnd as [Hk0 Hnd]. rewrite IH by done.
  destruct (String.eqb k0 k) eqn:E.
  - apply String.eqb_eq in E as ->.
    by rewrite (update_get_None k other Hk0), update_get_set_eq.
  - apply String.eqb_neq in E. destruct (dict_get k other); [done|].
    by apply update_get_set_ne.
Qed.

(** When a configuration file is named, found and decoded, the options of
    the command line override its values: the configuration class is called
    on a [dict] that gives every key of the command line the value it has
    there, and every other key the value of the file. *)
Theorem cli_overrides_file (config_path content : string)
    (open_ : string → opened) (loads : string → decoded (V:=V))
    (config_class : list (string * V) → validated (C:=C))
    (file cli_config : list (string * V)) :
  config_path ≠ EmptyString →
  open_ config_path = Content content →
  loads content = Table file →
  NoDup cli_config.*1 →
  ∃ config,
    _load_config (Some config_path) open_ loads config_class cli_config
    = build config_class config ∧
    ∀ k, dict_get k config
         = match dict_get k cli_config with
           | Some v => Some v
           | None => dict_get k file
           end.
Proof.
  intros Hpath Hopen Hloads Hnd. exists (dict_update file cli_config). split.
  - unfold _load_config. destruct config_path as [|ch rest]; [done|].
    by rewrite Hopen, Hloads.
  - intros k. by apply dict_update_get.
Qed.

(** [_load_config] raises the [ConfigError] of a file not found exactly when
    a path is given, is not empty, and opening it raises
    [FileNotFoundError]; that of an invalid TOML file exactly when the file
    is read and [toml.loads] raises [TomlDecodeError].  The command line
    plays no part in either. *)
Theorem file_errors (getenv : option string)
    (open_ : string → opened) (loads : string → decoded (V:=V))
    (config_class : list (string * V) → validated (C:=C))
    (cli_config : list (string * V)) (path : string) :
  (_load_config getenv open_ loads config_class cli_config
   = ConfigError (NotFound path) ↔
   getenv = Some path ∧ path ≠ EmptyString ∧ open_ path = FileNotFoundError) ∧
  (_load_config getenv open_ loads config_class cli_config
   = ConfigError (NotToml path) ↔
   getenv = Some path ∧ path ≠ EmptyString ∧
   ∃ content, open_ path = Content content ∧ loads content = TomlDecodeError).
Proof.
  assert (Hbuild : ∀ config why,
    build config_class config = ConfigError why → ∃ m, why = InvalidConfig m).
  { intros config why. unfold build.
    destruct (config_class config); intros [= <-]; eauto. }
  unfold _load_config.
  destruct getenv as [[|ch rest]|];
    [| destruct (open_ (String ch rest)) as [content| |e] eqn:Hopen;
       [destruct (loads content) as [file| |e] eqn:Hloads| |] |];
    (split; split;
     [intros H; first [by apply Hbuild in H as [m [=]]
                      |by simplify_eq; eauto]
     |intros (Hg & Hne & Hrest); simplify_eq; try done; try congruence
     |intros H; first [by apply Hbuild in H as [m [=]]
                      |by simplify_eq; eauto 10]
     |intros (Hg & Hne & content' & Ho & Hl); simplify_eq; try done;
      try congruence]).
Qed.

End load.

Lemma cli_overrides_file_witness :
  ∃ config : list (string * nat),
    _load_config (C:=unit) (Some "app.toml"%string)
      (λ _, Content "port = 1"%string)
      (λ _, Table [("port"%string, 1); ("debug"%string, 0)])
      (λ _, Valid tt) [("port"%string, 2)]
    = build (λ _, Valid tt) config ∧
    ∀ k, dict_get k config
         = match dict_get k [("port"%string, 2)] with
           | Some v => Some v
           | None => dict_get k [("port"%string, 1); ("debug"%string, 0)]
           end.
Proof.
  apply (cli_overrides_file "app.toml" "port = 1").
  - discriminate.
  - reflexivity.
  - reflexivity.
  - repeat constructor. by intros ?%elem_of_nil.
Defined.

End ConfigLoadProps.
